(** * Playlist cover images: path resolution and the upload / remove handlers

    A shallow embedding of [server/nativeapi/playlist_image.go], and of
    the side of the user interface that talks to it: the request
    wrappers of [ui/src/dataProvider/httpClient.js] and the two handlers
    of the playlist card that upload and remove the image.

    - Go strings are byte sequences: they are modelled as [list ascii].
    - [path/filepath] is modelled for the Unix build ([Separator] is a
      slash, no volume names): [Clean] follows the library's loop over a
      write buffer, [Join] its "first non-empty element" rule.
    - The handlers run in a small early-return state monad over a world
      made of the playlist repository and the file system, and record the
      calls they make to the outside, with their outcomes. *)

From Stdlib Require Import Ascii String List Bool Arith ZArith Lia Sorted.
From stdpp Require Import gmap strings list pretty.

Set Default Proof Using "Type".

Abbreviation gostring := (list ascii).

(** A Go string literal. *)
Definition str (s : string) : gostring := list_ascii_of_string s.

(* ===================================================================== *)
(** * strings and path/filepath (Unix) *)
(* ===================================================================== *)

Module strings.

(** [strings.HasPrefix(s, prefix)] *)
Fixpoint HasPrefix (s prefix : gostring) {struct prefix} : bool :=
  match prefix, s with
  | [], _ => true
  | p :: prefix', c :: s' => Ascii.eqb c p && HasPrefix s' prefix'
  | _ :: _, [] => false
  end.

(** [strings.Join(elems, sep)] *)
Fixpoint Join (elems : list gostring) (sep : gostring) : gostring :=
  match elems with
  | [] => []
  | [e] => e
  | e :: es => e ++ sep ++ Join es sep
  end.

End strings.

Module filepath.

Definition Separator : ascii := "/"%char.

Definition isSep (c : ascii) : bool := Ascii.eqb c Separator.
Definition isDot (c : ascii) : bool := Ascii.eqb c "."%char.

(** [r == n || path[r] == '/'] for the input that is left at [r]. *)
Definition atElemEnd (rest : gostring) : bool :=
  match rest with
  | [] => true
  | c :: _ => isSep c
  end.

(** The inner loop of the [..] case, after the first [out.w--]:
    [for out.w > dotdot && out.index(out.w) != '/' { out.w-- }]. *)
Fixpoint backtrackTo (out : gostring) (w dotdot : nat) : nat :=
  match w with
  | O => O
  | S w' =>
      if (dotdot <? w) && negb (isSep (nth w out Separator))
      then backtrackTo out w' dotdot
      else w
  end.

(** [for ; r < n && path[r] != '/'; r++ { out.append(path[r]) }]:
    the bytes appended and the input left. *)
Fixpoint copyElem (rest : gostring) : gostring * gostring :=
  match rest with
  | [] => ([], [])
  | c :: rest' =>
      if isSep c then ([], rest)
      else let '(elem, rest'') := copyElem rest' in (c :: elem, rest'')
  end.

(** The main loop of [Clean].  [rest] is [path[r:]]; [out] is the
    written part [buf[:w]] of the lazy buffer, so [out.w] is
    [length out]; [dotdot] is the index where [..] must stop.  Every
    iteration consumes at least one byte of [rest]; [fuel] bounds the
    number of iterations. *)
Fixpoint cleanLoop (fuel : nat) (rooted : bool) (rest out : gostring)
         (dotdot : nat) : gostring :=
  match fuel, rest with
  | _, [] => out
  | O, _ :: _ => out
  | S fuel, c :: rest1 =>
      if isSep c then
        (* empty path element *)
        cleanLoop fuel rooted rest1 out dotdot
      else if isDot c && atElemEnd rest1 then
        (* . element *)
        cleanLoop fuel rooted rest1 out dotdot
      else if isDot c && match rest1 with
                         | c1 :: rest2 => isDot c1 && atElemEnd rest2
                         | [] => false
                         end then
        (* .. element: remove to last / *)
        let rest2 := tl rest1 in
        if dotdot <? length out then
          (* can backtrack *)
          let w := backtrackTo out (length out - 1) dotdot in
          cleanLoop fuel rooted rest2 (firstn w out) dotdot
        else if negb rooted then
          (* cannot backtrack, but not rooted, so append .. element *)
          let out1 := if 0 <? length out then out ++ [Separator] else out in
          let out2 := out1 ++ ["."%char; "."%char] in
          cleanLoop fuel rooted rest2 out2 (length out2)
        else
          cleanLoop fuel rooted rest2 out dotdot
      else
        (* real path element: add slash if needed, copy element *)
        let out1 :=
          if (rooted && negb (length out =? 1))
             || (negb rooted && negb (length out =? 0))
          then out ++ [Separator] else out in
        let '(elem, rest') := copyElem rest in
        cleanLoop fuel rooted rest' (out1 ++ elem) dotdot
  end.

(** The buffer [Clean] ends with, before the empty result is turned
    into a dot. *)
Definition cleanBuf (path : gostring) : gostring :=
  match path with
  | [] => []
  | c :: path1 =>
      if isSep c
      then cleanLoop (length path) true path1 [Separator] 1
      else cleanLoop (length path) false path [] 0
  end.

(** [filepath.Clean(path)] *)
Definition Clean (path : gostring) : gostring :=
  match path with
  | [] => ["."%char]
  | _ :: _ =>
      let out := cleanBuf path in
      if length out =? 0 then ["."%char] else out
  end.

(** [filepath.Join(elem...)]: the elements from the first non-empty
    one on, joined with the separator and cleaned. *)
Fixpoint Join (elem : list gostring) : gostring :=
  match elem with
  | [] => []
  | e :: es =>
      match e with
      | [] => Join es
      | _ :: _ => Clean (strings.Join elem [Separator])
      end
  end.

End filepath.

(* ===================================================================== *)
(** * The storage location of a playlist's image *)
(* ===================================================================== *)

Definition playlistImageDir : gostring := str "playlist-images".

(** [playlistImagePath(playlistID)], with [conf.Server.DataFolder] passed
    in. *)
Definition playlistImagePath (DataFolder playlistID : gostring)
  : gostring * bool :=
  let p := filepath.Join [DataFolder; playlistImageDir; playlistID] in
  let p := filepath.Clean p in
  let base := filepath.Clean (filepath.Join [DataFolder; playlistImageDir]) in
  if negb (strings.HasPrefix p (base ++ [filepath.Separator]))
  then ([], false)
  else (p, true).

(* ===================================================================== *)
(** * The world of the handlers *)
(* ===================================================================== *)

(** Modelled from the spec: [model.Playlist], declared outside the
    handlers' file.  A playlist has an id, the id of its owner, the path
    of its image (empty: no custom image) and the time of its last
    update. *)
Module Playlist.
Record t := mk {
  ID : gostring;
  OwnerID : gostring;
  ImagePath : gostring;
  UpdatedAt : Z;
}.

(** [pls.ImagePath = path] *)
Definition setImagePath (pls : t) (path : gostring) : t :=
  {| ID := ID pls; OwnerID := OwnerID pls; ImagePath := path;
     UpdatedAt := UpdatedAt pls |}.

Definition setUpdatedAt (pls : t) (now : Z) : t :=
  {| ID := ID pls; OwnerID := OwnerID pls; ImagePath := ImagePath pls;
     UpdatedAt := now |}.
End Playlist.

(** Modelled from the spec: [model.User], declared outside the
    handlers' file.  The caller has an id and may be an administrator. *)
Module User.
Record t := mk {
  ID : gostring;
  IsAdmin : bool;
}.
End User.

(** The errors of the repository: [model.ErrNotFound] and any other. *)
Inductive error := ErrNotFound | ErrOther.

(** A decoded image: its bounds and its pixels, kept abstract. *)
Record Image := mkImage {
  Dx : Z;
  Dy : Z;
  pixels : nat;
}.

(** What a path of the file system holds. *)
Inductive Node :=
| Dir
| File (img : Image) (quality : Z).

Record World := mkWorld {
  repo : gmap gostring Playlist.t;
  fs : gmap gostring Node;
}.

(** The calls a handler makes to the outside, with their outcome. *)
Inductive Event :=
| EvGet (id : gostring) (res : Playlist.t + error)
| EvPut (pls : Playlist.t) (ok : bool)
| EvDecode (file : gostring) (res : option Image)
| EvFit (img : Image)
| EvMkdirAll (dir : gostring) (ok : bool)
| EvSave (img : Image) (path : gostring) (ok : bool)
| EvRemove (path : gostring) (ok : bool)
| EvRemoveAll (dir : gostring) (ok : bool).

(** The configuration, and what the outside decides: which calls fail,
    how bytes decode, what the resampling returns, what time it is. *)
Record Env := mkEnv {
  DataFolder : gostring;
  CoverJpegQuality : Z;
  getFails : gostring -> bool;
  putFails : Playlist.t -> bool;
  now : Z;
  decode : gostring -> option Image;
  fit : Image -> Z -> Z -> Image;
  mkdirAllFails : gostring -> bool;
  saveFails : gostring -> bool;
  removeFails : gostring -> bool;
  removeAllFails : gostring -> bool;
}.

(** The request as the handlers read it: the [playlistId] URL parameter,
    the user of the context, and the body (its size, whether it is a
    well-formed multipart form, and its [image] part). *)
Record Request := mkRequest {
  playlistId : gostring;
  user : option User.t;
  bodySize : Z;
  formOK : bool;
  imageFile : option gostring;
}.

Inductive Payload :=
| ErrorText (msg : string)
| JsonID (id : gostring).

Record Response := mkResponse {
  status : Z;
  payload : Payload;
}.

Definition StatusOK : Z := 200.
Definition StatusBadRequest : Z := 400.
Definition StatusUnauthorized : Z := 401.
Definition StatusForbidden : Z := 403.
Definition StatusNotFound : Z := 404.
Definition StatusInternalServerError : Z := 500.

(** ** Handlers: state, trace and early return *)

Definition Handler (A : Type) : Type :=
  World -> list Event * World * (A + Response).

Definition ret {A} (x : A) : Handler A := fun w => ([], w, inl x).

Definition bind {A B} (m : Handler A) (k : A -> Handler B) : Handler B :=
  fun w =>
    match m w with
    | (evs, w1, inl x) => let '(evs', w2, r) := k x w1 in (evs ++ evs', w2, r)
    | (evs, w1, inr resp) => (evs, w1, inr resp)
    end.

Notation "'let*' x ':=' m 'in' k" := (bind m (fun x => k))
  (at level 10, x name, m at level 100, k at level 200, only parsing).

(** [http.Error(w, msg, code); return] *)
Definition httpError {A} (msg : string) (code : Z) : Handler A :=
  fun w => ([], w, inr {| status := code; payload := ErrorText msg |}).

Definition run (h : Handler Response) (w : World)
  : list Event * World * Response :=
  let '(evs, w', r) := h w in
  (evs, w', match r with inl resp => resp | inr resp => resp end).

(** ** The playlist repository *)

(** Modelled from the spec: the repository's [Get(playlistId)], which is
    not in this file's source.  It returns the record stored under the
    id, fails with [ErrNotFound] for an unknown id, and can fail with
    another error. *)
Definition Get (env : Env) (id : gostring) : Handler (Playlist.t + error) :=
  fun w =>
    let res :=
      if getFails env id then inr ErrOther
      else match repo w !! id with
           | Some pls => inl pls
           | None => inr ErrNotFound
           end in
    ([EvGet id res], w, inl res).

(** Modelled from the spec: the repository's [Put(playlist)], which is
    not in this file's source.  It persists the record under its id and
    refreshes [UpdatedAt], or fails on a write error and leaves the
    repository as it was. *)
Definition Put (env : Env) (pls : Playlist.t) : Handler (option error) :=
  fun w =>
    if putFails env pls then ([EvPut pls false], w, inl (Some ErrOther))
    else
      ([EvPut pls true],
       {| repo := <[Playlist.ID pls := Playlist.setUpdatedAt pls (now env)]> (repo w);
          fs := fs w |},
       inl None).

(** ** Images ([image], [imaging]) *)

(** [image.Decode(file)] *)
Definition Decode (env : Env) (file : gostring) : Handler (option Image) :=
  fun w => ([EvDecode file (decode env file)], w, inl (decode env file)).

(** [imaging.Fit(img, width, height, imaging.Lanczos)] *)
Definition Fit (env : Env) (img : Image) (width height : Z) : Handler Image :=
  fun w => ([EvFit img], w, inl (fit env img width height)).

(** [imaging.Save(img, path, imaging.JPEGQuality(quality))]: the file
    holds the image encoded at that quality, or the call fails. *)
Definition Save (env : Env) (img : Image) (path : gostring) (quality : Z)
  : Handler (option error) :=
  fun w =>
    if saveFails env path then ([EvSave img path false], w, inl (Some ErrOther))
    else
      ([EvSave img path true],
       {| repo := repo w; fs := <[path := File img quality]> (fs w) |},
       inl None).

(** ** The file system ([os]) *)

(** [dir] and the directories above it, the root left out. *)
Fixpoint dirsFrom (pre rest : gostring) : list gostring :=
  match rest with
  | [] => [pre]
  | c :: rest' =>
      (if filepath.isSep c && negb (bool_decide (pre = [])) then [pre] else [])
      ++ dirsFrom (pre ++ [c]) rest'
  end.

Definition dirsOf (dir : gostring) : list gostring := dirsFrom [] dir.

(** [os.MkdirAll(dir, 0o755)]: the directory and its missing parents
    exist afterwards, or the call fails. *)
Definition MkdirAll (env : Env) (dir : gostring) : Handler (option error) :=
  fun w =>
    if mkdirAllFails env dir then ([EvMkdirAll dir false], w, inl (Some ErrOther))
    else
      ([EvMkdirAll dir true],
       {| repo := repo w;
          fs := fs w ∪ list_to_map ((fun d => (d, Dir)) <$> dirsOf dir) |},
       inl None).

(** [os.Remove(path)] *)
Definition Remove (env : Env) (path : gostring) : Handler (option error) :=
  fun w =>
    if removeFails env path then ([EvRemove path false], w, inl (Some ErrOther))
    else
      ([EvRemove path true], {| repo := repo w; fs := delete path (fs w) |},
       inl None).

(** [path] is [dir] or lies below it. *)
Definition underDir (dir path : gostring) : bool :=
  bool_decide (path = dir) || strings.HasPrefix path (dir ++ [filepath.Separator]).

(** [os.RemoveAll(dir)]: the directory and all it holds are gone, or the
    call fails. *)
Definition RemoveAll (env : Env) (dir : gostring) : Handler (option error) :=
  fun w =>
    if removeAllFails env dir then ([EvRemoveAll dir false], w, inl (Some ErrOther))
    else
      ([EvRemoveAll dir true],
       {| repo := repo w;
          fs := filter (fun kv => underDir dir kv.1 = false) (fs w) |},
       inl None).

(* ===================================================================== *)
(** * The handlers *)
(* ===================================================================== *)

Definition maxUploadSize : Z := Z.shiftl 5 20.
Definition maxImageDimension : Z := 1200.

(** [r.ParseMultipartForm(maxUploadSize)] on a body read through
    [http.MaxBytesReader(w, r.Body, maxUploadSize)] fails when the body
    is larger than the limit or is not a well-formed form. *)
Definition parseMultipartFormFails (r : Request) : bool :=
  (maxUploadSize <? bodySize r)%Z || negb (formOK r).

(** The response written at the end of both handlers: the JSON object
    with the playlist id. *)
Definition jsonID (playlistID : gostring) : Response :=
  {| status := StatusOK; payload := JsonID playlistID |}.

Definition uploadPlaylistImage (env : Env) (r : Request) : Handler Response :=
  let playlistID := playlistId r in
  (* Verify the playlist exists and the user has permission to modify it *)
  let* res := Get env playlistID in
  let* pls :=
    match res with
    | inr ErrNotFound => httpError "playlist not found" StatusNotFound
    | inr _ => httpError "internal server error" StatusInternalServerError
    | inl pls => ret pls
    end in
  let* user :=
    match user r with
    | None => httpError "unauthorized" StatusUnauthorized
    | Some user => ret user
    end in
  let* _ :=
    (if bool_decide (Playlist.OwnerID pls <> User.ID user)
        && negb (User.IsAdmin user)
     then httpError "you do not have permission to modify this playlist"
                    StatusForbidden
     else ret tt) in
  (* Limit request body size, parse the multipart form *)
  let* _ :=
    (if parseMultipartFormFails r
     then httpError "file too large (max 5MB)" StatusBadRequest
     else ret tt) in
  let* file :=
    match imageFile r with
    | None => httpError "missing or invalid image file" StatusBadRequest
    | Some file => ret file
    end in
  (* Validate the file is an image by attempting to decode it *)
  let* dec := Decode env file in
  let* img :=
    match dec with
    | None => httpError "invalid image file" StatusBadRequest
    | Some img => ret img
    end in
  (* Resize if necessary (cap at maxImageDimension x maxImageDimension) *)
  let* img :=
    (if (maxImageDimension <? Dx img)%Z || (maxImageDimension <? Dy img)%Z
     then Fit env img maxImageDimension maxImageDimension
     else ret img) in
  (* Ensure the storage directory path is safe *)
  let '(dir, safe) := playlistImagePath (DataFolder env) playlistID in
  let* _ :=
    (if negb safe
     then httpError "invalid playlist id" StatusBadRequest
     else ret tt) in
  let* err := MkdirAll env dir in
  let* _ :=
    (if err is Some _
     then httpError "internal server error" StatusInternalServerError
     else ret tt) in
  (* Save as JPEG for consistent format and smaller file size *)
  let destPath := filepath.Join [dir; str "cover.jpg"] in
  let* err := Save env img destPath (CoverJpegQuality env) in
  let* _ :=
    (if err is Some _
     then httpError "internal server error" StatusInternalServerError
     else ret tt) in
  (* Update the playlist record with the image path *)
  let pls := Playlist.setImagePath pls destPath in
  let* err := Put env pls in
  let* _ :=
    (if err is Some _
     then
       (* Try to clean up the saved file *)
       (let* _ := Remove env destPath in
        httpError "internal server error" StatusInternalServerError)
     else ret tt) in
  ret (jsonID playlistID).

Definition deletePlaylistImage (env : Env) (r : Request) : Handler Response :=
  let playlistID := playlistId r in
  (* Verify the playlist exists and the user has permission *)
  let* res := Get env playlistID in
  let* pls :=
    match res with
    | inr ErrNotFound => httpError "playlist not found" StatusNotFound
    | inr _ => httpError "internal server error" StatusInternalServerError
    | inl pls => ret pls
    end in
  let* user :=
    match user r with
    | None => httpError "unauthorized" StatusUnauthorized
    | Some user => ret user
    end in
  let* _ :=
    (if bool_decide (Playlist.OwnerID pls <> User.ID user)
        && negb (User.IsAdmin user)
     then httpError "you do not have permission to modify this playlist"
                    StatusForbidden
     else ret tt) in
  let* _ :=
    (if bool_decide (Playlist.ImagePath pls = [])
     then httpError "playlist has no custom image" StatusNotFound
     else ret tt) in
  (* Remove the image file and directory, validating the path first *)
  let '(dir, safe) := playlistImagePath (DataFolder env) playlistID in
  let* _ :=
    (if safe
     then
       (* the error of RemoveAll is logged only:
          continue anyway to clear the DB reference *)
       (let* _ := RemoveAll env dir in ret tt)
     else ret tt) in
  (* Clear the image path in the playlist record *)
  let pls := Playlist.setImagePath pls [] in
  let* err := Put env pls in
  let* _ :=
    (if err is Some _
     then httpError "internal server error" StatusInternalServerError
     else ret tt) in
  ret (jsonID playlistID).

(* ===================================================================== *)
(** * The web client: [ui/src/dataProvider/httpClient.js] *)
(* ===================================================================== *)

(** The requests of the user interface.  JavaScript strings are modelled
    as [string]; a value that may be [null] or [undefined] as an
    [option]; a promise by the way it settles; an exception by the value
    thrown. *)

Module httpClient.

Definition customAuthorizationHeader : string := "X-ND-Authorization".
Definition clientUniqueIdHeader : string := "X-ND-Client-Unique-Id".

(** ** The Fetch API's [Headers] *)

(** Header names are case-insensitive: [Headers] keeps them in lower
    case. *)
Definition lowerChar (c : ascii) : ascii :=
  let n := nat_of_ascii c in
  if (65 <=? n) && (n <=? 90) then ascii_of_nat (n + 32) else c.

Fixpoint lower (s : string) : string :=
  match s with
  | EmptyString => EmptyString
  | String c s' => String (lowerChar c) (lower s')
  end.

(** HTTP whitespace: tab, line feed, carriage return, space. *)
Definition isHTTPWhitespace (c : ascii) : bool :=
  let n := nat_of_ascii c in
  (n =? 9) || (n =? 10) || (n =? 13) || (n =? 32).

Fixpoint stripLeading (s : string) : string :=
  match s with
  | EmptyString => EmptyString
  | String c s' => if isHTTPWhitespace c then stripLeading s' else s
  end.

Fixpoint stripTrailing (s : string) : string :=
  match s with
  | EmptyString => EmptyString
  | String c s' =>
      match stripTrailing s' with
      | EmptyString => if isHTTPWhitespace c then EmptyString else String c EmptyString
      | t => String c t
      end
  end.

(** A value is normalised when it enters a [Headers] object: leading
    and trailing HTTP whitespace is removed. *)
Definition normalize (value : string) : string :=
  stripTrailing (stripLeading value).

Lemma stripTrailing_idempotent s : stripTrailing (stripTrailing s) = stripTrailing s.
Proof.
  induction s as [|c s IH]; [done|]. cbn [stripTrailing].
  destruct (stripTrailing s) as [|c' t] eqn:Ht.
  - destruct (isHTTPWhitespace c) eqn:Hc; [done|]. cbn [stripTrailing]. by rewrite Hc.
  - remember (String c' t) as u eqn:Hu. cbn [stripTrailing]. rewrite IH. by subst u.
Qed.

Lemma stripLeading_stripTrailing s :
  stripLeading (stripTrailing (stripLeading s)) = stripTrailing (stripLeading s).
Proof.
  induction s as [|c s IH]; [done|]. cbn [stripLeading].
  destruct (isHTTPWhitespace c) eqn:Hc; [done|]. cbn [stripTrailing].
  destruct (stripTrailing s); rewrite ?Hc; cbn [stripLeading]; by rewrite Hc.
Qed.

Lemma normalize_idempotent value : normalize (normalize value) = normalize value.
Proof.
  unfold normalize. by rewrite stripLeading_stripTrailing, stripTrailing_idempotent.
Qed.

(** A [Headers] object with one value for a name: its values by
    lower-cased name, each of them normalised. *)
Definition normalized (entries : gmap string string) : Prop :=
  map_Forall (fun _ value => normalize value = value) entries.

Record Headers := mkHeaders {
  entries : gmap string string;
  entries_normalized : normalized entries;
}.

Lemma normalized_empty : normalized ∅.
Proof. apply map_Forall_empty. Qed.

Lemma normalized_insert entries name value :
  normalized entries -> normalized (<[name := normalize value]> entries).
Proof. intros H. apply map_Forall_insert_2; [apply normalize_idempotent|done]. Qed.

(** [headers.set(name, value)].  The call throws a [TypeError] for a
    value that holds a NUL, a line feed or a carriage return after
    normalisation; the values of this module (a uuid, a token taken from
    a response header, a media type) hold none, and that case is left
    out. *)
Definition Headers_set (headers : Headers) (name value : string) : Headers :=
  {| entries := <[lower name := normalize value]> (entries headers);
     entries_normalized := normalized_insert _ _ _ (entries_normalized headers) |}.

(** [headers.get(name)], [null] when the header is absent *)
Definition Headers_get (headers : Headers) (name : string) : option string :=
  entries headers !! lower name.

(** [new Headers(init)], for an [init] object whose names differ: each
    of its pairs is entered. *)
Definition Headers_new (init : list (string * string)) : Headers :=
  foldl (fun headers kv => Headers_set headers kv.1 kv.2)
        {| entries := ∅; entries_normalized := normalized_empty |} init.

(** ** The browser and the outside *)

(** [localStorage], [config.firstTime], and the number of calls made to
    [removeHomeCache], whose code is elsewhere. *)
Record Browser := mkBrowser {
  localStorage : gmap string string;
  firstTime : bool;
  homeCacheRemovals : nat;
}.

(** What a rejected promise or a [throw] carries. *)
Inductive Thrown :=
| InvalidTokenError
| FetchError (reason : string)
| SyntaxError
| Error (message : string).

Inductive Settled (A : Type) :=
| Fulfilled (value : A)
| Rejected (reason : Thrown).
Arguments Fulfilled {A} value.
Arguments Rejected {A} reason.

(** The [options] of a request: its [headers], when given, and the rest. *)
Module Options.
Record t := mk {
  headers : option Headers;
  method : string;
  body : string;
}.

(** [options.headers = headers] *)
Definition setHeaders (options : t) (h : Headers) : t :=
  {| headers := Some h; method := method options; body := body options |}.
End Options.

(** The response of [fetch]: its status, its headers, its body as text
    and as parsed JSON ([None] when the body is not JSON). *)
Module Resp.
Record t := mk {
  status : Z;
  headers : Headers;
  text : string;
  json : option string;
}.

(** [response.ok] *)
Definition ok (response : t) : bool :=
  (200 <=? status response)%Z && (status response <=? 299)%Z.
End Resp.

(** The form of what [uuidv4()] returns: 36 characters, hexadecimal
    digits in lower case and hyphens. *)
Definition isUUIDChar (c : ascii) : bool :=
  let n := nat_of_ascii c in
  ((48 <=? n) && (n <=? 57)) || ((97 <=? n) && (n <=? 102)) || (n =? 45).

Definition isUUID (s : string) : bool :=
  (String.length s =? 36) && forallb isUUIDChar (list_ascii_of_string s).

(** What the module takes from outside: the id drawn by [uuidv4()] when
    it is loaded, [baseUrl], [jwtDecode] ([None]: it throws; otherwise the
    [uid] of the token, which may be [undefined]), [fetch] and
    [fetchUtils.fetchJson]. *)
Record Client := mkClient {
  clientUniqueId : string;
  clientUniqueId_uuid : isUUID clientUniqueId = true;
  baseUrl : string -> string;
  jwtDecode : string -> option (option string);
  fetch : string -> Options.t -> Thrown + Resp.t;
  fetchJson : string -> Options.t -> Thrown + Resp.t;
}.

(** JavaScript's truth of a string: the empty string is false. *)
Definition truthy (s : string) : bool := negb (String.eqb s "").

(** The string a value is stored as by [localStorage.setItem]. *)
Definition toString (v : option string) : string := default "undefined" v.

(** ** The functions of the module *)

(** [setAuthHeaders(headers)]: applies the standard auth headers to a
    [Headers] object, which it changes in place. *)
Definition setAuthHeaders (c : Client) (b : Browser) (headers : Headers) : Headers :=
  let headers := Headers_set headers clientUniqueIdHeader (clientUniqueId c) in
  match localStorage b !! "token" with
  | Some token =>
      if truthy token
      then Headers_set headers customAuthorizationHeader ("Bearer " +:+ token)
      else headers
  | None => headers
  end.

(** [processTokenRefresh(responseHeaders)]: checks for a refreshed JWT in
    the response and stores it. *)
Definition processTokenRefresh (c : Client) (responseHeaders : Headers) (b : Browser)
  : Browser * option Thrown :=
  match Headers_get responseHeaders customAuthorizationHeader with
  | Some token =>
      if truthy token then
        match jwtDecode c token with
        | None => (b, Some InvalidTokenError)
        | Some uid =>
            ({| localStorage :=
                  <["userId" := toString uid]> (<["token" := token]> (localStorage b));
                firstTime := false;
                homeCacheRemovals := S (homeCacheRemovals b) |},
             None)
        end
      else (b, None)
  | None => (b, None)
  end.

(** The headers a request goes out with: those of [options], or the
    default ones when it has none, with the auth headers set. *)
Definition withAuthHeaders (c : Client) (b : Browser) (default : Headers)
           (options : Options.t) : Options.t :=
  let options :=
    match Options.headers options with
    | None => Options.setHeaders options default
    | Some _ => options
    end in
  match Options.headers options with
  | Some h => Options.setHeaders options (setAuthHeaders c b h)
  | None => options
  end.

(** [httpClient(url, options)]: the options as the call leaves them, the
    browser afterwards, and how the promise settles. *)
Definition httpClient (c : Client) (url : string) (options : Options.t) (b : Browser)
  : Options.t * Browser * Settled Resp.t :=
  let url := baseUrl c url in
  let options :=
    withAuthHeaders c b (Headers_new [("Accept", "application/json")]) options in
  match fetchJson c url options with
  | inl e => (options, b, Rejected e)
  | inr response =>
      match processTokenRefresh c (Resp.headers response) b with
      | (b', Some e) => (options, b', Rejected e)
      | (b', None) => (options, b', Fulfilled response)
      end
  end.

(** [httpClientUpload(url, options)]: a raw [fetch] wrapper for
    multipart/form-data uploads. *)
Definition httpClientUpload (c : Client) (url : string) (options : Options.t)
           (b : Browser) : Options.t * Browser * Settled string :=
  let url := baseUrl c url in
  let options := withAuthHeaders c b (Headers_new []) options in
  match fetch c url options with
  | inl e => (options, b, Rejected e)
  | inr response =>
      match processTokenRefresh c (Resp.headers response) b with
      | (b', Some e) => (options, b', Rejected e)
      | (b', None) =>
          if negb (Resp.ok response) then
            let text := Resp.text response in
            (options, b',
             Rejected (Error (if truthy text then text
                              else "Request failed with status "
                                   +:+ pretty (Resp.status response))))
          else
            match Resp.json response with
            | Some value => (options, b', Fulfilled value)
            | None => (options, b', Rejected SyntaxError)
            end
      end
  end.

End httpClient.

(* ===================================================================== *)
(** * The playlist details card: component [PlaylistDetails] *)
(* ===================================================================== *)

(** The two handlers of the card that change the cover image.  What a
    handler does is the sequence of calls it makes to the hooks of the
    component ([notify], [refresh], [setUploading], the data provider,
    the file input); the data provider's answers and the translations
    are those of the environment [Hooks].  The hooks themselves are
    taken not to throw. *)

Module PlaylistDetails.
Import httpClient.

(** A [File] of the input: its MIME [type] and its [size] in bytes. *)
Module File.
Record t := { type : string; size : Z }.
End File.

(** The fields of [props.record] the handlers read; [None] is a field
    the record does not have. *)
Record Props := {
  record_id : option string;
  record_imagePath : option string
}.

(** How a promise of the data provider settles: a rejection carries the
    [message] of the error, when it has one. *)
Inductive Outcome :=
| Resolved
| RejectedWith (message : option string).

Record Hooks := {
  translate : string -> string;
  uploadPlaylistImage : string -> File.t -> Outcome;
  deletePlaylistImage : string -> Outcome;
  (** whether [fileInputRef.current] is set *)
  fileInputRef_current : bool
}.

Inductive Call :=
| StopPropagation
| Notify (message type : string) (smart_count : option Z)
| Refresh
| SetUploading (uploading : bool)
| UploadPlaylistImage (id : string) (file : File.t)
| DeletePlaylistImage (id : string)
| ResetFileInput.

(** [err.message || fallback] *)
Definition messageOr (message : option string) (fallback : string) : string :=
  match message with
  | Some m => if truthy m then m else fallback
  | None => fallback
  end.

(** [handleFileChange(e)], with [files] for [e.target.files]. *)
Definition handleFileChange (h : Hooks) (record : Props) (files : option (list File.t))
  : list Call :=
  match files ≫= head, record_id record with
  | Some file, Some id =>
      if negb (truthy id) then []
      else if negb (String.prefix "image/" (File.type file)) then
        [Notify (translate h "resources.playlist.message.invalidImageType") "warning" None]
      else if (File.size file >? 5 * 1024 * 1024)%Z then
        [Notify (translate h "resources.playlist.message.imageTooLarge") "warning" None]
      else
        [SetUploading true; UploadPlaylistImage id file]
        ++ match uploadPlaylistImage h id file with
           | Resolved => [Notify "ra.notification.updated" "info" (Some 1%Z); Refresh]
           | RejectedWith message =>
               [Notify (messageOr message
                          (translate h "resources.playlist.message.imageUploadError"))
                       "warning" None]
           end
        ++ [SetUploading false]
        ++ (if fileInputRef_current h then [ResetFileInput] else [])
  | _, _ => []
  end.

(** [handleRemoveImage(e)]. *)
Definition handleRemoveImage (h : Hooks) (record : Props) : list Call :=
  StopPropagation ::
  match record_id record, record_imagePath record with
  | Some id, Some imagePath =>
      if negb (truthy id) || negb (truthy imagePath) then []
      else
        DeletePlaylistImage id ::
        match deletePlaylistImage h id with
        | Resolved => [Notify "ra.notification.updated" "info" (Some 1%Z); Refresh]
        | RejectedWith message =>
            [Notify (messageOr message
                       (translate h "resources.playlist.message.imageRemoveError"))
                    "warning" None]
        end
  | _, _ => []
  end.

End PlaylistDetails.

(* ===================================================================== *)
(** * [Clean] seen as a pass over path elements *)
(* ===================================================================== *)

Module CleanElems.
Import filepath.

(** The elements of a path: the pieces between separators. *)
Fixpoint splitSep (s : gostring) : list gostring :=
  match s with
  | [] => [[]]
  | c :: s' =>
      if isSep c then [] :: splitSep s'
      else match splitSep s' with
           | seg :: segs => (c :: seg) :: segs
           | [] => [[c]]
           end
  end.

Definition dotElem : gostring := ["."%char].
Definition dotdotElem : gostring := ["."%char; "."%char].

Definition noSep (seg : gostring) : Prop := Forall (fun c => isSep c = false) seg.

(** What one iteration of the loop does to the buffer and to [dotdot],
    as a function of the element it reads. *)
Definition stepElem (rooted : bool) (st : gostring * nat) (seg : gostring)
  : gostring * nat :=
  let '(out, dotdot) := st in
  if decide (seg = []) then st
  else if decide (seg = dotElem) then st
  else if decide (seg = dotdotElem) then
    if dotdot <? length out then
      (firstn (backtrackTo out (length out - 1) dotdot) out, dotdot)
    else if negb rooted then
      let out1 := if 0 <? length out then out ++ [Separator] else out in
      let out2 := out1 ++ dotdotElem in
      (out2, length out2)
    else st
  else
    let out1 :=
      if (rooted && negb (length out =? 1))
         || (negb rooted && negb (length out =? 0))
      then out ++ [Separator] else out in
    (out1 ++ seg, dotdot).

Lemma isSep_true c : isSep c = true <-> c = Separator.
Proof. unfold isSep. apply Ascii.eqb_eq. Qed.

Lemma isDot_true c : isDot c = true <-> c = "."%char.
Proof. unfold isDot. apply Ascii.eqb_eq. Qed.

Lemma splitSep_not_nil s : splitSep s <> [].
Proof.
  destruct s as [|c s]; simpl; [done|].
  destruct (isSep c); [done|]. by destruct (splitSep s).
Qed.

(** An element followed by the end of the input or by a separator. *)
Lemma fold_splitSep_elem {S} (f : S -> gostring -> S) seg rest st :
  (forall st, f st [] = st) ->
  noSep seg -> atElemEnd rest = true ->
  fold_left f (splitSep (seg ++ rest)) st = fold_left f (splitSep rest) (f st seg).
Proof.
  intros Hf Hseg Hrest. revert st.
  assert (Hs : splitSep (seg ++ rest) = seg :: tl (splitSep rest)
               /\ exists tl', splitSep rest = [] :: tl').
  { induction Hseg as [|c seg Hc _ [IH [tl' Htl]]].
    - simpl. destruct rest as [|c rest]; simpl in *; [eauto|]. rewrite Hrest. eauto.
    - split; [|eauto]. simpl. rewrite Hc, IH. done. }
  destruct Hs as [-> [tl' ->]]. intros st. simpl. by rewrite Hf.
Qed.

Lemma copyElem_spec rest elem rest' :
  copyElem rest = (elem, rest') ->
  rest = elem ++ rest' /\ noSep elem /\ atElemEnd rest' = true.
Proof.
  revert elem rest'. induction rest as [|c rest IH]; intros elem rest'; simpl.
  - intros [= <- <-]. repeat split; constructor.
  - destruct (isSep c) eqn:Hc.
    + intros [= <- <-]. simpl. rewrite Hc. repeat split. constructor.
    + destruct (copyElem rest) as [e r]. intros [= <- <-].
      destruct (IH e r eq_refl) as (-> & He & Hr).
      repeat split; [by constructor|done].
Qed.

Lemma stepElem_nil rooted st : stepElem rooted st [] = st.
Proof. by destruct st. Qed.

Lemma stepElem_dot rooted st : stepElem rooted st dotElem = st.
Proof. by destruct st. Qed.

Lemma stepElem_dotdot rooted out dotdot :
  stepElem rooted (out, dotdot) dotdotElem
  = if dotdot <? length out then
      (firstn (backtrackTo out (length out - 1) dotdot) out, dotdot)
    else if negb rooted then
      let out2 := (if 0 <? length out then out ++ [Separator] else out) ++ dotdotElem in
      (out2, length out2)
    else (out, dotdot).
Proof. done. Qed.

Lemma stepElem_real rooted out dotdot seg :
  seg <> [] -> seg <> dotElem -> seg <> dotdotElem ->
  stepElem rooted (out, dotdot) seg
  = ((if (rooted && negb (length out =? 1))
         || (negb rooted && negb (length out =? 0))
      then out ++ [Separator] else out) ++ seg, dotdot).
Proof.
  intros H1 H2 H3. unfold stepElem.
  destruct (decide (seg = [])); [done|].
  destruct (decide (seg = dotElem)); [done|].
  by destruct (decide (seg = dotdotElem)).
Qed.

(** The loop is the fold of [stepElem] over the elements of the input,
    as soon as the fuel covers the input. *)
Lemma cleanLoop_elems rooted fuel : forall rest out dotdot,
  length rest <= fuel ->
  cleanLoop fuel rooted rest out dotdot
  = fst (fold_left (stepElem rooted) (splitSep rest) (out, dotdot)).
Proof.
  induction fuel as [fuel IH] using lt_wf_ind.
  intros rest out dotdot Hfuel.
  destruct rest as [|c rest1]; [by destruct fuel|].
  destruct fuel as [|fuel]; [simpl in Hfuel; lia|].
  simpl in Hfuel. cbn [cleanLoop].
  destruct (isSep c) eqn:Hsep.
  { rewrite IH by lia. simpl. by rewrite Hsep. }
  destruct (isDot c && atElemEnd rest1) eqn:Hdot.
  { apply andb_prop in Hdot as [Hc Hend]. apply isDot_true in Hc as ->.
    rewrite IH by lia.
    change ("."%char :: rest1) with (dotElem ++ rest1).
    rewrite (fold_splitSep_elem (stepElem rooted) dotElem rest1);
      [done|apply stepElem_nil|by repeat constructor|done]. }
  destruct (isDot c && match rest1 with
                       | c1 :: rest2 => isDot c1 && atElemEnd rest2
                       | [] => false
                       end) eqn:Hdd.
  { apply andb_prop in Hdd as [Hc Hdd]. apply isDot_true in Hc as ->.
    destruct rest1 as [|c1 rest2]; [done|].
    apply andb_prop in Hdd as [Hc1 Hend]. apply isDot_true in Hc1 as ->.
    simpl tl in *.
    change ("."%char :: "."%char :: rest2) with (dotdotElem ++ rest2).
    rewrite (fold_splitSep_elem (stepElem rooted) dotdotElem rest2);
      [|apply stepElem_nil|by repeat constructor|done].
    rewrite stepElem_dotdot. simpl in Hfuel.
    destruct (dotdot <? length out); [by rewrite IH by lia|].
    destruct rooted; simpl negb; cbv iota; by rewrite IH by lia. }
  destruct (copyElem (c :: rest1)) as [elem rest'] eqn:Hcopy.
  destruct (copyElem_spec _ _ _ Hcopy) as (Hrest & Helem & Hend).
  assert (Hlen : length rest' < S (length rest1)).
  { simpl in Hcopy. rewrite Hsep in Hcopy. destruct (copyElem rest1) as [e r] eqn:E.
    injection Hcopy as <- <-. apply copyElem_spec in E as (-> & _ & _).
    rewrite length_app. lia. }
  rewrite IH by lia. rewrite Hrest.
  rewrite (fold_splitSep_elem (stepElem rooted) elem rest');
    [|apply stepElem_nil|done|done].
  assert (Hne : elem <> []).
  { intros ->. simpl in Hrest. subst rest'. simpl in Hend. congruence. }
  assert (Hnd : elem <> dotElem).
  { intros ->. injection Hrest as -> ->. by rewrite Hend in Hdot. }
  assert (Hndd : elem <> dotdotElem).
  { intros ->. injection Hrest as -> ->. simpl in Hdd.
    by rewrite Hend in Hdd. }
  by rewrite stepElem_real.
Qed.

(** ** The buffer as a stack of elements *)

Definition normalElem (seg : gostring) : Prop :=
  seg <> [] /\ noSep seg /\ seg <> dotElem /\ seg <> dotdotElem.

(** The text of a stack of elements, the last written first. *)
Fixpoint renderRel (rstk : list gostring) : gostring :=
  match rstk with
  | [] => []
  | e :: below =>
      match below with
      | [] => e
      | _ :: _ => renderRel below ++ [Separator] ++ e
      end
  end.

Definition render (rooted : bool) (rstk : list gostring) : gostring :=
  (if rooted then [Separator] else []) ++ renderRel rstk.

(** A state of the buffer: [m] leading [..] elements, then the ordinary
    elements [ns] (the last written first). *)
Definition stackOf (st : nat * list gostring) : list gostring :=
  st.2 ++ repeat dotdotElem st.1.

Definition bufOf (rooted : bool) (st : nat * list gostring) : gostring :=
  render rooted (stackOf st).

Definition dotdotOf (rooted : bool) (st : nat * list gostring) : nat :=
  length (render rooted (repeat dotdotElem st.1)).

Definition stepStack (rooted : bool) (st : nat * list gostring) (seg : gostring)
  : nat * list gostring :=
  let '(m, ns) := st in
  if decide (seg = []) then st
  else if decide (seg = dotElem) then st
  else if decide (seg = dotdotElem) then
    match ns with
    | _ :: below => (m, below)
    | [] => if rooted then st else (S m, [])
    end
  else (m, seg :: ns).

Definition okStack (rooted : bool) (st : nat * list gostring) : Prop :=
  Forall normalElem st.2 /\ (rooted = true -> st.1 = 0).

Definition isRooted (path : gostring) : bool :=
  match path with
  | c :: _ => isSep c
  | [] => false
  end.

(** The elements of [path] pushed and popped in order. *)
Definition normalize (path : gostring) : nat * list gostring :=
  fold_left (stepStack (isRooted path)) (splitSep path) (0, []).

Lemma render_cons rooted e below :
  render rooted (e :: below)
  = render rooted below ++ (if below is [] then [] else [Separator]) ++ e.
Proof.
  unfold render. destruct below as [|e' below]; simpl renderRel.
  - by rewrite app_nil_r.
  - by rewrite <- !app_assoc.
Qed.

Lemma stackOf_elems_ne st :
  Forall normalElem st.2 -> Forall (fun e => e <> []) (stackOf st).
Proof.
  intros H. unfold stackOf. apply Forall_app. split.
  - eapply Forall_impl; [exact H|]. by intros e (? & _).
  - apply Forall_forall. intros e He. apply list_elem_of_In, repeat_spec in He. by subst.
Qed.

Lemma renderRel_nil_inv rstk :
  Forall (fun e => e <> []) rstk -> renderRel rstk = [] -> rstk = [].
Proof.
  destruct rstk as [|e below]; [done|]. intros H. inversion_clear H as [|? ? He _].
  simpl. destruct below.
  - done.
  - intros E. apply app_eq_nil in E as [_ E]. done.
Qed.

Lemma render_needs_sep rooted rstk :
  Forall (fun e => e <> []) rstk ->
  (rooted && negb (length (render rooted rstk) =? 1))
  || (negb rooted && negb (length (render rooted rstk) =? 0))
  = if rstk is [] then false else true.
Proof.
  intros H. unfold render.
  destruct rstk as [|e below]; [by destruct rooted|].
  assert (Hl : length (renderRel (e :: below)) <> 0).
  { intros E. apply length_zero_iff_nil, renderRel_nil_inv in E; done. }
  generalize dependent (renderRel (e :: below)). intros r Hr.
  destruct rooted; simpl.
  - rewrite orb_false_r. apply negb_true_iff, Nat.eqb_neq. lia.
  - apply negb_true_iff, Nat.eqb_neq. lia.
Qed.

Lemma render_length_mono rooted below dots :
  length (render rooted dots) <= length (render rooted (below ++ dots)).
Proof.
  induction below as [|e below IH]; [done|].
  simpl app. rewrite render_cons, !length_app. lia.
Qed.

(** The backward scan stops at [length pre] when no byte after it is a
    separator and either [dotdot] or a separator sits there. *)
Lemma backtrackTo_stop (out pre : gostring) dotdot k :
  dotdot <= length pre ->
  (dotdot = length pre \/ isSep (nth (length pre) out Separator) = true) ->
  (forall i, 1 <= i <= k -> isSep (nth (length pre + i) out Separator) = false) ->
  backtrackTo out (length pre + k) dotdot = length pre.
Proof.
  intros Hdd Hstop. induction k as [|k IH]; intros Hk.
  - rewrite Nat.add_0_r. destruct (length pre) as [|w] eqn:E; [done|].
    simpl. destruct Hstop as [-> | ->].
    + by rewrite Nat.ltb_irrefl.
    + by rewrite andb_false_r.
  - rewrite Nat.add_succ_r. simpl.
    rewrite <- Nat.add_succ_r, (Hk (S k)) by lia.
    replace (dotdot <? length pre + S k) with true
      by (symmetry; apply Nat.ltb_lt; lia).
    simpl. apply IH. intros i Hi. apply Hk. lia.
Qed.

Lemma backtrack_sep (pre n : gostring) dotdot :
  noSep n -> dotdot <= length pre ->
  let out := pre ++ [Separator] ++ n in
  firstn (backtrackTo out (length out - 1) dotdot) out = pre.
Proof.
  intros Hn Hdd out. subst out.
  replace (length (pre ++ [Separator] ++ n) - 1) with (length pre + length n)
    by (rewrite !length_app; simpl; lia).
  rewrite (backtrackTo_stop _ pre).
  - by rewrite firstn_app, Nat.sub_diag, firstn_all, app_nil_r.
  - done.
  - right. by rewrite app_nth2, Nat.sub_diag by lia.
  - intros i Hi. rewrite app_nth2_plus.
    destruct i as [|i]; [lia|]. simpl.
    eapply Forall_forall in Hn; [exact Hn|].
    apply list_elem_of_In, nth_In. lia.
Qed.

Lemma backtrack_start (pre n : gostring) c dotdot :
  noSep n -> dotdot = length pre ->
  let out := pre ++ c :: n in
  firstn (backtrackTo out (length out - 1) dotdot) out = pre.
Proof.
  intros Hn Hdd out. subst out.
  replace (length (pre ++ c :: n) - 1) with (length pre + length n)
    by (rewrite !length_app; simpl; lia).
  rewrite (backtrackTo_stop _ pre).
  - by rewrite firstn_app, Nat.sub_diag, firstn_all, app_nil_r.
  - lia.
  - by left.
  - intros i Hi. rewrite app_nth2_plus.
    destruct i as [|i]; [lia|]. simpl.
    eapply Forall_forall in Hn; [exact Hn|].
    apply list_elem_of_In, nth_In. lia.
Qed.

Lemma stepStack_dotdot rooted m ns :
  stepStack rooted (m, ns) dotdotElem
  = match ns with
    | _ :: below => (m, below)
    | [] => if rooted then (m, ns) else (S m, [])
    end.
Proof. done. Qed.

Lemma stepStack_real rooted m ns seg :
  seg <> [] -> seg <> dotElem -> seg <> dotdotElem ->
  stepStack rooted (m, ns) seg = (m, seg :: ns).
Proof.
  intros H1 H2 H3. unfold stepStack.
  destruct (decide (seg = [])); [done|].
  destruct (decide (seg = dotElem)); [done|].
  by destruct (decide (seg = dotdotElem)).
Qed.

Lemma stepStack_ok rooted st seg :
  okStack rooted st -> noSep seg -> okStack rooted (stepStack rooted st seg).
Proof.
  destruct st as [m ns]. intros [Hns Hm] Hseg. simpl in Hns, Hm.
  destruct (decide (seg = [])) as [->|Hne]; [done|].
  destruct (decide (seg = dotElem)) as [->|Hnd]; [done|].
  destruct (decide (seg = dotdotElem)) as [->|Hndd].
  - rewrite stepStack_dotdot. destruct ns as [|n below].
    + destruct rooted; [done|]. split; [constructor|done].
    + inversion_clear Hns. by split.
  - rewrite stepStack_real by done. split; [|done].
    constructor; [|done]. by repeat split.
Qed.

(** One iteration of the loop is one push or pop on the stack. *)
Lemma stepElem_stack rooted st seg :
  okStack rooted st -> noSep seg ->
  stepElem rooted (bufOf rooted st, dotdotOf rooted st) seg
  = (bufOf rooted (stepStack rooted st seg),
     dotdotOf rooted (stepStack rooted st seg)).
Proof.
  destruct st as [m ns]. intros [Hns Hm] Hseg. simpl in Hns, Hm.
  destruct (decide (seg = [])) as [->|Hne]; [done|].
  destruct (decide (seg = dotElem)) as [->|Hnd]; [done|].
  destruct (decide (seg = dotdotElem)) as [->|Hndd].
  - rewrite stepElem_dotdot, stepStack_dotdot.
    unfold bufOf, dotdotOf, stackOf. simpl fst. simpl snd.
    destruct ns as [|n below].
    + simpl app. rewrite Nat.ltb_irrefl.
      destruct rooted; [done|]. simpl negb. cbv iota.
      destruct m as [|m]; [done|].
      replace (0 <? length (render false (repeat dotdotElem (S m)))) with true.
      2:{ symmetry. apply Nat.ltb_lt. simpl repeat. rewrite render_cons, !length_app.
          simpl. lia. }
      cbv zeta.
      assert (E : render false (repeat dotdotElem (S m)) ++ [Separator] ++ dotdotElem
                  = render false (repeat dotdotElem (S (S m)))).
      { change (repeat dotdotElem (S (S m)))
          with (dotdotElem :: repeat dotdotElem (S m)).
        by rewrite (render_cons _ _ (repeat dotdotElem (S m))). }
      rewrite <- app_assoc. by rewrite E.
    + inversion_clear Hns as [|? ? (Hn1 & Hn2 & _) Hbelow].
      simpl app. rewrite render_cons.
      pose proof (render_length_mono rooted below (repeat dotdotElem m)) as Hmono.
      replace (length (render rooted (repeat dotdotElem m))
               <? length (render rooted (below ++ repeat dotdotElem m)
                          ++ (if below ++ repeat dotdotElem m is [] then [] else [Separator])
                          ++ n)) with true.
      2:{ symmetry. apply Nat.ltb_lt. rewrite !length_app.
          destruct n; [done|]. simpl. lia. }
      f_equal.
      destruct (below ++ repeat dotdotElem m) as [|e stk] eqn:E.
      * apply app_eq_nil in E as [-> E]. simpl in Hmono |- *.
        destruct n as [|c n]; [done|]. inversion_clear Hn2.
        apply backtrack_start; [done|]. by rewrite E.
      * by apply backtrack_sep.
  - rewrite stepElem_real, stepStack_real by done.
    unfold bufOf, dotdotOf, stackOf. simpl fst. simpl snd.
    rewrite render_needs_sep by (by apply (stackOf_elems_ne (m, ns))).
    simpl app. rewrite render_cons. f_equal.
    destruct (ns ++ repeat dotdotElem m); [done|].
    by rewrite <- app_assoc.
Qed.

Lemma splitSep_noSep s : Forall noSep (splitSep s).
Proof.
  induction s as [|c s IH]; simpl; [by repeat constructor|].
  destruct (isSep c) eqn:Hc; [by repeat constructor|].
  destruct (splitSep s) as [|seg segs]; [by repeat constructor|].
  inversion_clear IH. constructor; [by constructor|done].
Qed.

Lemma fold_stepElem_stack rooted segs : forall st,
  okStack rooted st -> Forall noSep segs ->
  fold_left (stepElem rooted) segs (bufOf rooted st, dotdotOf rooted st)
  = (bufOf rooted (fold_left (stepStack rooted) segs st),
     dotdotOf rooted (fold_left (stepStack rooted) segs st))
  /\ okStack rooted (fold_left (stepStack rooted) segs st).
Proof.
  induction segs as [|seg segs IH]; intros st Hst Hsegs; [done|].
  inversion_clear Hsegs. cbn [fold_left]. rewrite stepElem_stack by done.
  apply IH; [by apply stepStack_ok|done].
Qed.

Lemma okStack_init rooted : okStack rooted (0, []).
Proof. split; [constructor|done]. Qed.

Lemma normalize_ok path : okStack (isRooted path) (normalize path).
Proof.
  apply (fold_stepElem_stack _ _ (0, [])); [apply okStack_init|apply splitSep_noSep].
Qed.

(** [Clean]'s buffer is the text of the normalised stack of elements. *)
Lemma cleanBuf_normalize path :
  cleanBuf path = bufOf (isRooted path) (normalize path).
Proof.
  unfold normalize.
  destruct path as [|c path1]; [done|]. simpl isRooted. unfold cleanBuf.
  destruct (isSep c) eqn:Hc.
  - rewrite cleanLoop_elems by (simpl; lia).
    change ([Separator], 1) with (bufOf true (0, []), dotdotOf true (0, [])).
    destruct (fold_stepElem_stack true (splitSep path1) (0, [])) as [-> _];
      [apply okStack_init|apply splitSep_noSep|].
    simpl. by rewrite Hc.
  - rewrite cleanLoop_elems by done.
    change ([], 0) with (bufOf false (0, []), dotdotOf false (0, [])).
    destruct (fold_stepElem_stack false (splitSep (c :: path1)) (0, [])) as [-> _];
      [apply okStack_init|apply splitSep_noSep|done].
Qed.

(** ** Reading a rendered stack back *)

Lemma splitSep_app_sep a b :
  splitSep (a ++ [Separator] ++ b) = splitSep a ++ splitSep b.
Proof.
  induction a as [|c a IH]; [done|].
  simpl in IH |- *. rewrite IH. destruct (isSep c); [done|].
  destruct (splitSep a) as [|seg segs] eqn:E; [by destruct (splitSep_not_nil a)|done].
Qed.

Lemma splitSep_single seg : noSep seg -> splitSep seg = [seg].
Proof.
  induction 1 as [|c seg Hc _ IH]; [done|]. simpl. by rewrite Hc, IH.
Qed.

Lemma normalElem_noSep e : normalElem e -> noSep e.
Proof. by intros (_ & ? & _). Qed.

Lemma dotdotElem_noSep : noSep dotdotElem.
Proof. by repeat constructor. Qed.

Lemma stackOf_noSep st : Forall normalElem st.2 -> Forall noSep (stackOf st).
Proof.
  intros H. unfold stackOf. apply Forall_app. split.
  - eapply Forall_impl; [exact H|]. apply normalElem_noSep.
  - apply Forall_forall. intros e He. apply list_elem_of_In, repeat_spec in He.
    subst. apply dotdotElem_noSep.
Qed.

Lemma splitSep_renderRel e below :
  Forall noSep (e :: below) ->
  splitSep (renderRel (e :: below)) = rev (e :: below).
Proof.
  revert e. induction below as [|e' below IH]; intros e H.
  - inversion_clear H. simpl. by apply splitSep_single.
  - inversion_clear H as [|? ? He Hbelow].
    change (renderRel (e :: e' :: below))
      with (renderRel (e' :: below) ++ [Separator] ++ e).
    rewrite splitSep_app_sep, IH by done.
    by rewrite (splitSep_single e).
Qed.

(** The elements of a rendered stack: an empty first element when the
    path is rooted, then the stack from its bottom up. *)
Lemma splitSep_render rooted rstk :
  rstk <> [] -> Forall noSep rstk ->
  splitSep (render rooted rstk) = (if rooted then [[]] else []) ++ rev rstk.
Proof.
  intros Hne H. destruct rstk as [|e below]; [done|]. unfold render.
  destruct rooted.
  - change ([Separator] ++ renderRel (e :: below))
      with ([] ++ [Separator] ++ renderRel (e :: below)).
    by rewrite splitSep_app_sep, splitSep_renderRel.
  - by rewrite app_nil_l, splitSep_renderRel.
Qed.

Lemma renderRel_not_rooted rstk :
  Forall (fun e => e <> []) rstk -> Forall noSep rstk ->
  isRooted (renderRel rstk) = false.
Proof.
  induction rstk as [|e below IH]; [done|]. intros Hne Hns.
  inversion_clear Hne as [|? ? He Hbelow]. inversion_clear Hns as [|? ? Hs Hsbelow].
  simpl. destruct below as [|e' below].
  - destruct e as [|c e]; [done|]. by inversion_clear Hs.
  - specialize (IH Hbelow Hsbelow).
    destruct (renderRel (e' :: below)) as [|c r] eqn:E; [|done].
    by apply renderRel_nil_inv in E.
Qed.

Lemma isRooted_render rooted rstk :
  Forall (fun e => e <> []) rstk -> Forall noSep rstk ->
  isRooted (render rooted rstk) = rooted.
Proof.
  intros. unfold render. destruct rooted; [done|]. by apply renderRel_not_rooted.
Qed.

Lemma fold_stepStack_nil rooted segs st :
  fold_left (stepStack rooted) ([] :: segs) st = fold_left (stepStack rooted) segs st.
Proof. by destruct st. Qed.

Lemma fold_stepStack_dots rooted m :
  (rooted = true -> m = 0) ->
  fold_left (stepStack rooted) (repeat dotdotElem m) (0, []) = (m, []).
Proof.
  intros Hm.
  assert (H : forall k j, (rooted = true -> k = 0) ->
            fold_left (stepStack rooted) (repeat dotdotElem k) (j, []) = (k + j, [])).
  { induction k as [|k IH]; intros j Hk; [done|].
    destruct rooted; [by specialize (Hk eq_refl)|].
    cbn [repeat fold_left]. rewrite stepStack_dotdot, IH by done. f_equal. lia. }
  rewrite H by done. f_equal. lia.
Qed.

Lemma fold_stepStack_normals rooted ns m :
  Forall normalElem ns ->
  fold_left (stepStack rooted) (rev ns) (m, []) = (m, ns).
Proof.
  induction ns as [|n ns IH]; [done|]. intros H.
  inversion_clear H as [|? ? (H1 & _ & H3 & H4) Hns].
  simpl rev. rewrite fold_left_app, IH by done. simpl.
  by apply stepStack_real.
Qed.

(** Normalising the text of a normalised stack gives the stack back. *)
Lemma normalize_bufOf rooted st :
  okStack rooted st -> normalize (bufOf rooted st) = st.
Proof.
  destruct st as [m ns]. intros [Hns Hm]. simpl in Hns, Hm.
  unfold normalize, bufOf.
  rewrite isRooted_render
    by (by apply (stackOf_elems_ne (m, ns)) || by apply (stackOf_noSep (m, ns))).
  destruct (stackOf (m, ns)) as [|e below] eqn:E.
  - unfold stackOf in E. apply app_eq_nil in E as [E1 E2]. simpl in E1, E2.
    subst ns. destruct m; [|done]. by destruct rooted.
  - rewrite splitSep_render;
      [|done|rewrite <- E; by apply (stackOf_noSep (m, ns))].
    rewrite <- E. unfold stackOf. simpl fst. simpl snd.
    rewrite rev_app_distr, rev_repeat.
    assert (F : fold_left (stepStack rooted) (repeat dotdotElem m ++ rev ns) (0, [])
                = (m, ns)).
    { by rewrite fold_left_app, fold_stepStack_dots, fold_stepStack_normals. }
    destruct rooted; [|done].
    simpl app. by rewrite fold_stepStack_nil.
Qed.

(** The empty buffer is turned into a dot. *)
Definition finish (buf : gostring) : gostring :=
  if buf is [] then dotElem else buf.

Lemma Clean_normalize path :
  Clean path = finish (bufOf (isRooted path) (normalize path)).
Proof.
  destruct path as [|c path]; [done|].
  unfold Clean. rewrite cleanBuf_normalize.
  by destruct (bufOf (isRooted (c :: path)) (normalize (c :: path))).
Qed.

Lemma Clean_bufOf rooted st :
  okStack rooted st -> Clean (finish (bufOf rooted st)) = finish (bufOf rooted st).
Proof.
  intros Hst.
  assert (F : bufOf rooted st = [] \/ finish (bufOf rooted st) = bufOf rooted st).
  { destruct (bufOf rooted st); [by left | by right]. }
  destruct F as [E | E]; [by rewrite E|].
  rewrite E at 1. rewrite Clean_normalize, normalize_bufOf by done.
  replace (isRooted (bufOf rooted st)) with rooted; [done|].
  symmetry. destruct Hst.
  apply isRooted_render; [by apply stackOf_elems_ne | by apply stackOf_noSep].
Qed.

(** [Clean] is idempotent. *)
Lemma Clean_idempotent path : Clean (Clean path) = Clean path.
Proof. rewrite (Clean_normalize path). apply Clean_bufOf, normalize_ok. Qed.

(** ** Appending elements to a path *)

Lemma normalize_app_sep (x y : gostring) :
  x <> [] ->
  normalize (x ++ [Separator] ++ y)
  = fold_left (stepStack (isRooted x)) (splitSep y) (normalize x).
Proof.
  intros Hx. unfold normalize. rewrite splitSep_app_sep, fold_left_app.
  by destruct x.
Qed.

Lemma fold_stepStack_ok rooted segs st :
  okStack rooted st -> Forall noSep segs ->
  okStack rooted (fold_left (stepStack rooted) segs st).
Proof. intros. by apply fold_stepElem_stack. Qed.

Lemma render_app rooted (a b : list gostring) :
  a <> [] -> b <> [] ->
  render rooted (a ++ b) = render rooted b ++ [Separator] ++ renderRel a.
Proof.
  intros Ha Hb. induction a as [|e a IH]; [done|].
  simpl app. rewrite render_cons. destruct a as [|e' a].
  - simpl app. by destruct b.
  - rewrite IH by done. simpl app.
    change (renderRel (e :: e' :: a)) with (renderRel (e' :: a) ++ [Separator] ++ e).
    by rewrite <- !app_assoc.
Qed.

Lemma repeat_dotdot_not_normal d m : normalElem d -> d ∉ repeat dotdotElem m.
Proof.
  intros (_ & _ & _ & Hd) Hin. by apply list_elem_of_In, repeat_spec in Hin.
Qed.

(** A stack splits in one way only into ordinary elements over [..]
    elements. *)
Lemma stack_split_unique ns1 : forall ns2 m1 m2,
  Forall normalElem ns1 -> Forall normalElem ns2 ->
  ns1 ++ repeat dotdotElem m1 = ns2 ++ repeat dotdotElem m2 ->
  ns1 = ns2 /\ m1 = m2.
Proof.
  induction ns1 as [|n ns1 IH]; intros ns2 m1 m2 H1 H2 E.
  - destruct ns2 as [|n' ns2].
    + split; [done|]. simpl in E. apply (f_equal length) in E.
      by rewrite !repeat_length in E.
    + inversion_clear H2 as [|? ? Hn' _]. exfalso.
      apply (repeat_dotdot_not_normal n' m1 Hn'). simpl in E. rewrite E. by left.
  - inversion_clear H1 as [|? ? Hn Hns1]. destruct ns2 as [|n' ns2].
    + exfalso. apply (repeat_dotdot_not_normal n m2 Hn). simpl in E. rewrite <- E. by left.
    + inversion_clear H2. injection E as -> E.
      destruct (IH ns2 m1 m2) as [-> ->]; done.
Qed.

Lemma stack_extends a : forall ns1 d ns2 m1 m2,
  Forall normalElem ns1 -> Forall normalElem (d :: ns2) ->
  ns1 ++ repeat dotdotElem m1 = a ++ (d :: ns2) ++ repeat dotdotElem m2 ->
  ns1 = a ++ d :: ns2 /\ m1 = m2.
Proof.
  induction a as [|e a IH]; intros ns1 d ns2 m1 m2 H1 H2 E.
  - by apply stack_split_unique.
  - destruct ns1 as [|n ns1].
    + exfalso. inversion_clear H2 as [|? ? Hd _].
      apply (repeat_dotdot_not_normal d m1 Hd). simpl in E. rewrite E.
      right. apply elem_of_app. right. by left.
    + inversion_clear H1. injection E as -> E.
      destruct (IH ns1 d ns2 m1 m2) as [-> ->]; done.
Qed.

Lemma bufOf_ne rooted m n ns : Forall normalElem (n :: ns) -> bufOf rooted (m, n :: ns) <> [].
Proof.
  intros H E. unfold bufOf, render in E. apply app_eq_nil in E as [_ E].
  apply renderRel_nil_inv in E; [done|]. by apply (stackOf_elems_ne (m, n :: ns)).
Qed.

(** The text of [T] starts with the text of [B] and a separator exactly
    when [T] is [B] with ordinary elements pushed on top. *)
Lemma bufOf_below rooted (T : nat * list gostring) m0 d ns0 rest :
  okStack rooted T -> Forall normalElem (d :: ns0) ->
  finish (bufOf rooted T) = (bufOf rooted (m0, d :: ns0) ++ [Separator]) ++ rest ->
  exists extra, extra <> [] /\ T = (m0, extra ++ d :: ns0)
                /\ rest = renderRel extra /\ splitSep rest = rev extra.
Proof.
  intros [HT HTm] HB E.
  pose proof (bufOf_ne rooted m0 d ns0 HB) as HBne.
  assert (HBl : 1 <= length (bufOf rooted (m0, d :: ns0))).
  { destruct (bufOf rooted (m0, d :: ns0)); [done|simpl; lia]. }
  destruct (stackOf T) as [|e below] eqn:ET.
  { exfalso. apply (f_equal length) in E. unfold bufOf in E at 1. rewrite ET in E.
    rewrite !length_app in E. destruct rooted; simpl in E; lia. }
  assert (HTne : bufOf rooted T <> []).
  { unfold bufOf, render. rewrite ET. intros F. apply app_eq_nil in F as [_ F].
    apply renderRel_nil_inv in F; [done|]. rewrite <- ET. by apply stackOf_elems_ne. }
  assert (F : finish (bufOf rooted T) = bufOf rooted T)
    by (by destruct (bufOf rooted T)).
  rewrite F in E. clear F.
  pose proof (f_equal splitSep E) as S.
  rewrite <- app_assoc, splitSep_app_sep in S. unfold bufOf in S.
  rewrite !splitSep_render in S;
    [| done | by apply (stackOf_noSep (m0, d :: ns0))
     | by rewrite ET | by apply stackOf_noSep].
  rewrite <- app_assoc in S. apply app_inv_head in S.
  apply (f_equal (@rev gostring)) in S. rewrite rev_app_distr, !rev_involutive in S.
  destruct T as [mT nsT]. unfold stackOf in S. simpl fst in S. simpl snd in S.
  destruct (stack_extends (rev (splitSep rest)) nsT d ns0 mT m0) as [-> ->];
    [done|done|done|].
  assert (Hex : rev (splitSep rest) <> []).
  { intros N. apply (f_equal (@rev gostring)) in N. rewrite rev_involutive in N.
    by apply splitSep_not_nil in N. }
  exists (rev (splitSep rest)). split; [done|]. split; [done|].
  split; [|by rewrite rev_involutive].
  unfold bufOf, stackOf in E. simpl fst in E. simpl snd in E.
  rewrite <- (app_assoc (rev (splitSep rest))), render_app in E by done.
  rewrite <- !app_assoc in E. apply app_inv_head in E. simpl in E. by injection E.
Qed.

Lemma bufOf_extend rooted m0 d ns0 extra :
  extra <> [] ->
  bufOf rooted (m0, extra ++ d :: ns0)
  = bufOf rooted (m0, d :: ns0) ++ [Separator] ++ renderRel extra.
Proof.
  intros He. unfold bufOf, stackOf. simpl fst. simpl snd.
  by rewrite <- app_assoc, render_app.
Qed.

End CleanElems.

(* ===================================================================== *)
(** * [playlistImagePath] on stacks of elements *)
(* ===================================================================== *)

Module ImagePath.
Import filepath CleanElems.

Lemma HasPrefix_spec s prefix :
  strings.HasPrefix s prefix = true <-> exists rest, s = prefix ++ rest.
Proof.
  revert s. induction prefix as [|p prefix IH]; intros s.
  - split; [by exists s|done].
  - destruct s as [|c s]; simpl.
    + split; [done|]. by intros [rest ?].
    + rewrite andb_true_iff, Ascii.eqb_eq, IH. split.
      * intros [-> [rest ->]]. by exists rest.
      * intros [rest [= -> ->]]. split; [done|by exists rest].
Qed.

(** The text [Join] cleans for the base directory. *)
Definition baseText (DataFolder : gostring) : gostring :=
  if DataFolder is [] then playlistImageDir
  else DataFolder ++ [Separator] ++ playlistImageDir.

Lemma playlistImageDir_normal : normalElem playlistImageDir.
Proof. repeat split; try done. by repeat constructor. Qed.

Lemma baseText_ne root : baseText root <> [].
Proof. by destruct root. Qed.

Lemma Join_base root : Join [root; playlistImageDir] = Clean (baseText root).
Proof. by destruct root. Qed.

Lemma Join_id root id :
  Join [root; playlistImageDir; id] = Clean (baseText root ++ [Separator] ++ id).
Proof.
  destruct root as [|c root]; [done|].
  unfold baseText. cbn [Join strings.Join]. by rewrite <- !app_assoc.
Qed.

Lemma normalize_base root :
  exists m0 ns0,
    okStack (isRooted (baseText root)) (m0, playlistImageDir :: ns0)
    /\ normalize (baseText root) = (m0, playlistImageDir :: ns0).
Proof.
  pose proof playlistImageDir_normal as Hd.
  destruct root as [|c root].
  - exists 0, []. split; [|done]. split; [by constructor|done].
  - unfold baseText. rewrite normalize_app_sep by done.
    rewrite (splitSep_single playlistImageDir) by apply Hd.
    destruct (normalize (c :: root)) as [m0 ns0] eqn:E.
    pose proof (normalize_ok (c :: root)) as Hok. rewrite E in Hok.
    exists m0, ns0. destruct Hd as (? & ? & ? & ?).
    cbn [fold_left]. rewrite stepStack_real by done. split; [|done].
    destruct Hok as [Hns Hm]. split; [by constructor|done].
Qed.

(** The two outcomes of [playlistImagePath]: the elements of the id,
    pushed on the stack of the base directory, either leave that stack in
    place with ordinary elements on top (accepted), or they do not
    (rejected). *)
Lemma playlistImagePath_cases root id :
  exists rooted m0 ns0,
    let B := (m0, playlistImageDir :: ns0) in
    let T := fold_left (stepStack rooted) (splitSep id) B in
    let base := Clean (Join [root; playlistImageDir]) in
    okStack rooted B /\ okStack rooted T /\ base = bufOf rooted B /\
    ((exists extra, extra <> [] /\ Forall normalElem extra
        /\ T = (m0, extra ++ playlistImageDir :: ns0)
        /\ playlistImagePath root id
           = (base ++ [Separator] ++ renderRel extra, true))
     \/ ((forall extra, extra <> [] -> T <> (m0, extra ++ playlistImageDir :: ns0))
         /\ playlistImagePath root id = ([], false))).
Proof.
  destruct (normalize_base root) as (m0 & ns0 & HB & EB).
  set (rooted := isRooted (baseText root)) in *.
  exists rooted, m0, ns0. intros B T base.
  assert (HT : okStack rooted T)
    by (apply fold_stepStack_ok; [done|apply splitSep_noSep]).
  assert (Hbase : base = bufOf rooted B).
  { unfold base. rewrite Join_base, Clean_idempotent, Clean_normalize.
    fold rooted. rewrite EB. fold B.
    pose proof (bufOf_ne rooted m0 playlistImageDir ns0 (proj1 HB)).
    fold B in H. by destruct (bufOf rooted B). }
  assert (Hp : Clean (Join [root; playlistImageDir; id]) = finish (bufOf rooted T)).
  { rewrite Join_id, Clean_idempotent, Clean_normalize.
    rewrite normalize_app_sep by apply baseText_ne.
    replace (isRooted (baseText root ++ [Separator] ++ id)) with rooted.
    - fold rooted. by rewrite EB.
    - unfold rooted. pose proof (baseText_ne root).
      by destruct (baseText root). }
  split; [done|]. split; [done|]. split; [done|].
  unfold playlistImagePath. fold base. rewrite Hp, Hbase.
  destruct (strings.HasPrefix (finish (bufOf rooted T)) (bufOf rooted B ++ [Separator]))
    eqn:Hpre; simpl negb; cbv iota.
  - left. apply HasPrefix_spec in Hpre as [rest Hrest].
    destruct (bufOf_below rooted T m0 playlistImageDir ns0 rest HT (proj1 HB) Hrest)
      as (extra & Hne & ET & -> & _).
    exists extra. split; [done|]. split.
    { destruct HT as [HT _]. rewrite ET in HT. simpl in HT.
      by apply Forall_app in HT as [? _]. }
    split; [done|]. by rewrite Hrest, <- app_assoc.
  - right. split; [|done]. intros extra Hne ET.
    assert (strings.HasPrefix (finish (bufOf rooted T)) (bufOf rooted B ++ [Separator])
            = true); [|congruence].
    apply HasPrefix_spec. exists (renderRel extra).
    rewrite ET, bufOf_extend, <- app_assoc by done. fold B.
    pose proof (bufOf_ne rooted m0 playlistImageDir ns0 (proj1 HB)).
    fold B in H. by destruct (bufOf rooted B).
Qed.

(** An accepted directory is the text of a stack with an ordinary
    element on top. *)
Lemma accepted_is_stack root id dir :
  playlistImagePath root id = (dir, true) ->
  exists rooted m ns,
    ns <> [] /\ okStack rooted (m, ns) /\ dir = bufOf rooted (m, ns).
Proof.
  intros Hdir.
  destruct (playlistImagePath_cases root id)
    as (rooted & m0 & ns0 & HB & HT & Hbase & Hcases).
  destruct Hcases as [(extra & Hne & _ & ET & E) | [_ E]]; [|congruence].
  rewrite ET in HT. rewrite E in Hdir.
  apply (f_equal fst) in Hdir. cbn [fst] in Hdir. subst dir.
  exists rooted, m0, (extra ++ playlistImageDir :: ns0).
  split; [by destruct extra|]. split; [done|].
  by rewrite Hbase, bufOf_extend.
Qed.

(** Joining one ordinary element to a cleaned path appends it. *)
Lemma Join_elem rooted m ns e :
  ns <> [] -> okStack rooted (m, ns) -> normalElem e ->
  Join [bufOf rooted (m, ns); e] = bufOf rooted (m, ns) ++ [Separator] ++ e.
Proof.
  intros Hne Hok He.
  assert (Hbuf : bufOf rooted (m, ns) <> []).
  { destruct ns as [|n ns]; [done|]. apply bufOf_ne, Hok. }
  assert (Hroot : isRooted (bufOf rooted (m, ns)) = rooted).
  { destruct Hok. apply isRooted_render;
      [by apply (stackOf_elems_ne (m, ns)) | by apply (stackOf_noSep (m, ns))]. }
  destruct (bufOf rooted (m, ns)) as [|c buf] eqn:E; [done|].
  cbn [Join strings.Join]. rewrite <- E in *.
  rewrite Clean_normalize, normalize_app_sep by done.
  replace (isRooted (bufOf rooted (m, ns) ++ [Separator] ++ e)) with rooted
    by (rewrite E; by rewrite E in Hroot).
  rewrite Hroot, normalize_bufOf by done.
  rewrite (splitSep_single e) by apply He. destruct He as (? & ? & ? & ?).
  cbn [fold_left]. rewrite stepStack_real by done.
  unfold bufOf, stackOf. simpl fst. simpl snd. simpl app.
  rewrite render_cons. destruct ns as [|n ns]; [done|]. simpl app.
  by destruct (render rooted (n :: ns ++ repeat dotdotElem m)).
Qed.

End ImagePath.

(* ===================================================================== *)
(** * Properties of [playlistImagePath] *)
(* ===================================================================== *)

Module ResolveProps.
Import filepath CleanElems ImagePath.

(** The ids the specification wants refused. *)
Definition containsDotDot (id : gostring) : Prop :=
  exists a b, id = a ++ dotdotElem ++ b.

Definition absolutePrefix (id : gostring) : Prop :=
  exists t, id = Separator :: t.

Definition embeddedSeparator (id : gostring) : Prop :=
  exists a b, a <> [] /\ b <> [] /\ id = a ++ Separator :: b.

(** Every element of the id is empty, [.] or [..]. *)
Definition onlyDots (id : gostring) : bool :=
  forallb (fun e => bool_decide (e = []) || bool_decide (e = dotElem)
                    || bool_decide (e = dotdotElem))
          (splitSep id).

Definition isAlnum (c : ascii) : bool :=
  let n := nat_of_ascii c in
  (48 <=? n) && (n <=? 57) || (65 <=? n) && (n <=? 90)
  || (97 <=? n) && (n <=? 122).

Lemma isAlnum_plain c : isAlnum c = true -> isSep c = false /\ isDot c = false.
Proof. destruct c as [[] [] [] [] [] [] [] []]; vm_compute; by intros. Qed.

Lemma alnum_normalElem id :
  id <> [] -> forallb isAlnum id = true -> normalElem id.
Proof.
  intros Hne Hal. rewrite forallb_forall in Hal.
  assert (Hall : Forall (fun c => isSep c = false /\ isDot c = false) id).
  { apply Forall_forall. intros c Hc. apply isAlnum_plain, Hal.
    by apply list_elem_of_In. }
  split; [done|]. split.
  { eapply Forall_impl; [exact Hall|]. by intros c [? _]. }
  split; intros ->; inversion_clear Hall as [|? ? [_ Hd] _]; done.
Qed.

(** Elements that are empty, [.] or [..] never make the stack of
    ordinary elements longer. *)
Lemma fold_stepStack_onlyDots rooted segs : forall st,
  forallb (fun e => bool_decide (e = []) || bool_decide (e = dotElem)
                    || bool_decide (e = dotdotElem)) segs = true ->
  length (fold_left (stepStack rooted) segs st).2 <= length st.2.
Proof.
  induction segs as [|seg segs IH]; intros [m ns] H; [done|].
  simpl in H. apply andb_prop in H as [Hseg Hsegs].
  cbn [fold_left]. etrans; [by apply IH|].
  apply orb_prop in Hseg as [Hseg|Hseg]; [apply orb_prop in Hseg as [Hseg|Hseg]|];
    apply bool_decide_eq_true in Hseg as ->; try done.
  rewrite stepStack_dotdot. destruct ns; [by destruct rooted|simpl; lia].
Qed.

(** Enough fuel: once the fuel covers the input, more fuel changes
    nothing, so [Clean] always runs its loop to the end of the path. *)
Lemma cleanLoop_fuel rooted fuel rest out dotdot :
  length rest <= fuel ->
  cleanLoop fuel rooted rest out dotdot
  = cleanLoop (length rest) rooted rest out dotdot.
Proof. intros H. by rewrite !cleanLoop_elems. Qed.

(** C1, as the code has it.  The id is judged on its cleaned path, not
    on its text: [ok = false] exactly when the cleaned joined path does
    not start with the cleaned base directory followed by a separator.
    For every storage root this refuses every playlist id all of whose
    path elements are empty, [.] or [..] (the empty id, [.], [..],
    [../..], [/], [./../] and so on), with an empty path returned. *)
Theorem playlistImagePath_rejects_dots root id :
  let base := Clean (Join [root; playlistImageDir]) in
  (onlyDots id = true -> playlistImagePath root id = ([], false))
  /\ (snd (playlistImagePath root id) = false
      <-> ~ exists rest,
            Clean (Join [root; playlistImageDir; id]) = base ++ [Separator] ++ rest).
Proof.
  intros base. split.
  - intros Hid.
    destruct (playlistImagePath_cases root id)
      as (rooted & m0 & ns0 & _ & _ & _ & [(extra & Hne & _ & ET & _) | [_ ->]]);
      [exfalso|done].
    pose proof (fold_stepStack_onlyDots rooted (splitSep id)
                  (m0, playlistImageDir :: ns0) Hid) as Hlen.
    rewrite ET in Hlen. simpl in Hlen. rewrite length_app in Hlen. simpl in Hlen.
    destruct extra; [done|simpl in Hlen; lia].
  - unfold playlistImagePath. fold base.
    destruct (strings.HasPrefix (Clean (Join [root; playlistImageDir; id]))
                (base ++ [Separator])) eqn:E; cbn [negb snd].
    + split; [done|]. intros Hno. exfalso. apply Hno.
      apply HasPrefix_spec in E as [rest E]. exists rest.
      by rewrite E, <- app_assoc.
    + split; [|done]. intros _ [rest Hrest].
      assert (strings.HasPrefix (Clean (Join [root; playlistImageDir; id]))
                (base ++ [Separator]) = true); [|congruence].
      apply HasPrefix_spec. exists rest. by rewrite Hrest, <- app_assoc.
Qed.

Lemma playlistImagePath_rejects_dots_witness :
  onlyDots (str "../..") = true
  /\ playlistImagePath (str "/data") (str "../..") = ([], false).
Proof.
  split; [reflexivity|].
  apply (proj1 (playlistImagePath_rejects_dots (str "/data") (str "../.."))).
  reflexivity.
Defined.

(** C1 as stated fails: an id with [..] inside a name, an id that begins
    with a separator and an id with a separator between two names are all
    accepted under the root [/data]. *)
Lemma playlistImagePath_accepts_unsafe_looking :
  (containsDotDot (str "a..b")
   /\ playlistImagePath (str "/data") (str "a..b")
      = (str "/data/playlist-images/a..b", true))
  /\ (absolutePrefix (str "/abc")
      /\ playlistImagePath (str "/data") (str "/abc")
         = (str "/data/playlist-images/abc", true))
  /\ (embeddedSeparator (str "a/b")
      /\ playlistImagePath (str "/data") (str "a/b")
         = (str "/data/playlist-images/a/b", true)).
Proof.
  repeat split.
  - by exists (str "a"), (str "b").
  - by exists (str "abc").
  - by exists (str "a"), (str "b").
Qed.

(** C2.  [playlistImagePath] is a function of the storage root and the
    id alone, and its loop always runs to the end of its input.  When it
    answers [ok = true], the directory it returns is the cleaned base
    directory, a separator, and a non-empty rest made of ordinary
    elements only (none empty, [.] or [..]): the nesting is decided on a
    separator boundary.  When it answers [ok = false] the path is empty.
    Every non-empty id made of ASCII letters and digits only is accepted,
    as the directory of that name under the base. *)
Theorem playlistImagePath_nested root id :
  let base := Clean (Join [root; playlistImageDir]) in
  (forall fuel rooted rest out dotdot,
      length rest <= fuel ->
      cleanLoop fuel rooted rest out dotdot
      = cleanLoop (length rest) rooted rest out dotdot)
  /\ (forall p, playlistImagePath root id = (p, true) ->
        exists rest, p = base ++ [Separator] ++ rest /\ rest <> []
                     /\ Forall normalElem (splitSep rest))
  /\ (snd (playlistImagePath root id) = false ->
      fst (playlistImagePath root id) = [])
  /\ (id <> [] -> forallb isAlnum id = true ->
      playlistImagePath root id = (base ++ [Separator] ++ id, true)).
Proof.
  intros base. split; [intros; by apply cleanLoop_fuel|].
  destruct (playlistImagePath_cases root id)
    as (rooted & m0 & ns0 & HB & HT & _ & Hcases).
  fold base in Hcases. split; [|split].
  - intros p Hp.
    destruct Hcases as [(extra & Hne & Hnorm & ET & E) | [_ E]]; [|congruence].
    rewrite E in Hp. injection Hp as <-. exists (renderRel extra).
    assert (Hsep : Forall noSep extra).
    { eapply Forall_impl; [exact Hnorm|]. apply normalElem_noSep. }
    destruct extra as [|e extra]; [done|].
    split; [done|]. split.
    + intros N. apply renderRel_nil_inv in N; [done|].
      eapply Forall_impl; [exact Hnorm|]. by intros ? (? & _).
    + rewrite splitSep_renderRel by done. by apply Forall_rev.
  - destruct Hcases as [(extra & _ & _ & _ & ->) | [_ ->]]; done.
  - intros Hne Hal. pose proof (alnum_normalElem id Hne Hal) as Hid.
    assert (ET : fold_left (stepStack rooted) (splitSep id)
                   (m0, playlistImageDir :: ns0)
                 = (m0, [id] ++ playlistImageDir :: ns0)).
    { rewrite splitSep_single by apply Hid. destruct Hid as (? & ? & ? & ?).
      cbn [fold_left]. by rewrite stepStack_real. }
    destruct Hcases as [(extra & _ & _ & ET' & ->) | [Hno _]].
    + rewrite ET in ET'. injection ET' as ET'.
      change (id :: playlistImageDir :: ns0)
        with ([id] ++ playlistImageDir :: ns0) in ET'.
      apply app_inv_tail in ET'. by subst.
    + by destruct (Hno [id]).
Qed.

Lemma playlistImagePath_nested_witness :
  str "abc123" <> []
  /\ forallb isAlnum (str "abc123") = true
  /\ playlistImagePath (str "/data") (str "abc123")
     = (Clean (Join [str "/data"; playlistImageDir]) ++ [Separator] ++ str "abc123",
        true).
Proof.
  split; [done|]. split; [reflexivity|].
  apply (proj2 (proj2 (proj2 (playlistImagePath_nested (str "/data") (str "abc123")))));
    [done|reflexivity].
Defined.

End ResolveProps.

(* ===================================================================== *)
(** * Properties of the handlers *)
(* ===================================================================== *)

Module HandlerProps.
Import filepath CleanElems ImagePath.

Arguments playlistImagePath : simpl never.
Arguments filepath.Join : simpl never.

Definition forbidden : Response :=
  {| status := StatusForbidden;
     payload := ErrorText "you do not have permission to modify this playlist" |}.

Definition noCustomImage : Response :=
  {| status := StatusNotFound; payload := ErrorText "playlist has no custom image" |}.

Definition internalServerError : Response :=
  {| status := StatusInternalServerError; payload := ErrorText "internal server error" |}.

Definition invalidPlaylistID : Response :=
  {| status := StatusBadRequest; payload := ErrorText "invalid playlist id" |}.

Definition invalidImageFile : Response :=
  {| status := StatusBadRequest; payload := ErrorText "invalid image file" |}.

(** The caller may modify the playlist: the owner, or an administrator. *)
Definition authorized (pls : Playlist.t) (u : User.t) : Prop :=
  Playlist.OwnerID pls = User.ID u \/ User.IsAdmin u = true.

Lemma authorized_check pls u :
  authorized pls u ->
  bool_decide (Playlist.OwnerID pls <> User.ID u) && negb (User.IsAdmin u) = false.
Proof.
  intros [H|H].
  - by rewrite bool_decide_false by (by intros ?).
  - rewrite H. apply andb_false_r.
Qed.

Lemma unauthorized_check pls u :
  Playlist.OwnerID pls <> User.ID u -> User.IsAdmin u = false ->
  bool_decide (Playlist.OwnerID pls <> User.ID u) && negb (User.IsAdmin u) = true.
Proof. intros H1 H2. by rewrite bool_decide_true, H2. Qed.

(** C8.  An upload or a removal by a caller who is neither the owner of
    the playlist nor an administrator is answered 403 Forbidden; the only
    call made is the [Get] that fetched the playlist: no file is written
    or deleted, no [Put] is made, and the repository and the file system
    are as before. *)
Theorem forbidden_no_effect env r w pls u :
  getFails env (playlistId r) = false ->
  repo w !! playlistId r = Some pls ->
  user r = Some u ->
  Playlist.OwnerID pls <> User.ID u -> User.IsAdmin u = false ->
  run (uploadPlaylistImage env r) w
  = ([EvGet (playlistId r) (inl pls)], w, forbidden)
  /\ run (deletePlaylistImage env r) w
     = ([EvGet (playlistId r) (inl pls)], w, forbidden).
Proof.
  intros Hget Hpls Hu Hown Hadm.
  unfold run, uploadPlaylistImage, deletePlaylistImage, bind, Get.
  rewrite Hget, Hpls, Hu. simpl.
  by rewrite unauthorized_check.
Qed.


(** What a removal does once the playlist is fetched, the caller is
    authorized and the playlist has an image. *)
Lemma remove_with_image env r w pls u :
  getFails env (playlistId r) = false ->
  repo w !! playlistId r = Some pls ->
  user r = Some u -> authorized pls u ->
  Playlist.ImagePath pls <> [] ->
  let '(dir, safe) := playlistImagePath (DataFolder env) (playlistId r) in
  let cleared := Playlist.setImagePath pls [] in
  let failed := removeAllFails env dir in
  let w1 :=
    if safe && negb failed
    then {| repo := repo w;
            fs := filter (fun kv => underDir dir kv.1 = false) (fs w) |}
    else w in
  run (deletePlaylistImage env r) w
  = ([EvGet (playlistId r) (inl pls)]
       ++ (if safe then [EvRemoveAll dir (negb failed)] else [])
       ++ [EvPut cleared (negb (putFails env cleared))],
     (if putFails env cleared then w1
      else {| repo := <[Playlist.ID cleared
                        := Playlist.setUpdatedAt cleared (now env)]> (repo w1);
              fs := fs w1 |}),
     if putFails env cleared then internalServerError
     else jsonID (playlistId r)).
Proof.
  intros Hget Hpls Hu Hauth Himg.
  destruct (playlistImagePath (DataFolder env) (playlistId r)) as [dir safe] eqn:Hdir.
  unfold run, deletePlaylistImage, bind, Get.
  rewrite Hget, Hpls, Hu, Hdir. simpl.
  rewrite authorized_check, bool_decide_false by done. simpl.
  destruct safe; simpl.
  - unfold RemoveAll, Put.
    destruct (removeAllFails env dir); simpl;
      destruct (putFails env (Playlist.setImagePath pls [])); done.
  - unfold Put. destruct (putFails env (Playlist.setImagePath pls [])); done.
Qed.

(** ** Every run of the upload handler, case by case *)

Definition oversized (img : Image) : bool :=
  (maxImageDimension <? Dx img)%Z || (maxImageDimension <? Dy img)%Z.

Definition coverName : gostring := str "cover.jpg".

(** The run of [uploadPlaylistImage] written out: the calls made, the
    world left and the answer, decision after decision. *)
Definition uploadOutcome (env : Env) (r : Request) (w : World)
  : list Event * World * Response :=
  let id := playlistId r in
  if getFails env id
  then ([EvGet id (inr ErrOther)], w, internalServerError)
  else
  match repo w !! id with
  | None =>
      ([EvGet id (inr ErrNotFound)], w,
       {| status := StatusNotFound; payload := ErrorText "playlist not found" |})
  | Some pls =>
  let get := EvGet id (inl pls) in
  match user r with
  | None =>
      ([get], w,
       {| status := StatusUnauthorized; payload := ErrorText "unauthorized" |})
  | Some u =>
  if bool_decide (Playlist.OwnerID pls <> User.ID u) && negb (User.IsAdmin u)
  then ([get], w, forbidden)
  else if parseMultipartFormFails r
  then ([get], w,
        {| status := StatusBadRequest; payload := ErrorText "file too large (max 5MB)" |})
  else
  match imageFile r with
  | None =>
      ([get], w,
       {| status := StatusBadRequest;
          payload := ErrorText "missing or invalid image file" |})
  | Some file =>
  match decode env file with
  | None => ([get; EvDecode file None], w, invalidImageFile)
  | Some img0 =>
  let img :=
    if oversized img0 then fit env img0 maxImageDimension maxImageDimension
    else img0 in
  let pre := [get; EvDecode file (Some img0)]
             ++ (if oversized img0 then [EvFit img0] else []) in
  let '(dir, safe) := playlistImagePath (DataFolder env) id in
  if negb safe then (pre, w, invalidPlaylistID)
  else if mkdirAllFails env dir
  then (pre ++ [EvMkdirAll dir false], w, internalServerError)
  else
  let w1 := {| repo := repo w;
               fs := fs w ∪ list_to_map ((fun d => (d, Dir)) <$> dirsOf dir) |} in
  let destPath := filepath.Join [dir; coverName] in
  if saveFails env destPath
  then (pre ++ [EvMkdirAll dir true; EvSave img destPath false], w1,
        internalServerError)
  else
  let w2 := {| repo := repo w;
               fs := <[destPath := File img (CoverJpegQuality env)]> (fs w1) |} in
  let pls' := Playlist.setImagePath pls destPath in
  if putFails env pls'
  then (pre ++ [EvMkdirAll dir true; EvSave img destPath true; EvPut pls' false;
                EvRemove destPath (negb (removeFails env destPath))],
        (if removeFails env destPath then w2
         else {| repo := repo w; fs := delete destPath (fs w2) |}),
        internalServerError)
  else (pre ++ [EvMkdirAll dir true; EvSave img destPath true; EvPut pls' true],
        {| repo := <[Playlist.ID pls' := Playlist.setUpdatedAt pls' (now env)]> (repo w);
           fs := fs w2 |},
        jsonID id)
  end end end end.

Lemma run_upload env r w :
  run (uploadPlaylistImage env r) w = uploadOutcome env r w.
Proof.
  unfold run, uploadPlaylistImage, uploadOutcome, bind, Get. cbn beta zeta.
  destruct (getFails env (playlistId r)); [done|].
  destruct (repo w !! playlistId r) as [pls|]; [|done].
  destruct (user r) as [u|]; [|done]. simpl.
  destruct (bool_decide (Playlist.OwnerID pls <> User.ID u) && negb (User.IsAdmin u));
    [done|]. simpl.
  destruct (parseMultipartFormFails r); [done|]. simpl.
  destruct (imageFile r) as [file|]; [|done]. simpl.
  destruct (decode env file) as [img0|]; [|done]. simpl.
  fold (oversized img0).
  destruct (playlistImagePath (DataFolder env) (playlistId r)) as [dir safe].
  fold coverName.
  destruct (oversized img0); simpl.
  all: destruct safe; [|done]; simpl.
  all: unfold MkdirAll; destruct (mkdirAllFails env dir); [done|]; simpl.
  all: unfold Save; destruct (saveFails env _); [done|]; simpl.
  all: unfold Put; destruct (putFails env _); [|done]; simpl.
  all: unfold Remove; simpl; by destruct (removeFails env _).
Qed.

Lemma coverName_normal : normalElem coverName.
Proof. repeat split; try done. by repeat constructor. Qed.

(** The file of an accepted directory: [cover.jpg] inside it. *)
Lemma destPath_spec root id dir :
  playlistImagePath root id = (dir, true) ->
  filepath.Join [dir; coverName] = dir ++ [Separator] ++ coverName.
Proof.
  intros Hdir.
  destruct (accepted_is_stack root id dir Hdir) as (rooted & m & ns & Hne & Hok & ->).
  apply Join_elem; [done|done|apply coverName_normal].
Qed.

Lemma elem_of_dirsFrom pre rest : pre ++ rest ∈ dirsFrom pre rest.
Proof.
  revert pre. induction rest as [|c rest IH]; intros pre; simpl.
  - rewrite app_nil_r. by left.
  - apply elem_of_app. right.
    replace (pre ++ c :: rest) with ((pre ++ [c]) ++ rest) by (by rewrite <- app_assoc).
    apply IH.
Qed.

(** After [MkdirAll] the directory exists: it is what it was, or a new
    directory. *)
Lemma lookup_mkdirAll (m : gmap gostring Node) dir :
  (m ∪ list_to_map ((fun d => (d, Dir)) <$> dirsOf dir)) !! dir
  = Some (default Dir (m !! dir)).
Proof.
  destruct (m !! dir) as [n|] eqn:E.
  - by erewrite lookup_union_Some_l.
  - rewrite lookup_union_r by done. simpl.
    destruct (list_to_map ((fun d => (d, Dir)) <$> dirsOf dir) !! dir)
      as [n|] eqn:F.
    + apply elem_of_list_to_map_2, list_elem_of_fmap in F as (d & [= -> ->] & _). done.
    + exfalso. apply not_elem_of_list_to_map_2 in F. apply F.
      rewrite <- list_fmap_compose. apply list_elem_of_fmap.
      exists dir. split; [done|]. apply (elem_of_dirsFrom [] dir).
Qed.

Ltac elem_cases H :=
  repeat match type of H with
         | _ ∈ [] => by apply elem_of_nil in H
         | _ ∈ _ :: _ => apply elem_of_cons in H as [H|H]; [try discriminate H|]
         | _ ∈ _ ++ _ => apply elem_of_app in H as [H|H]
         end.

(** C4.  Whenever the [Put] of an upload fails, the file had been saved
    just before, the removal of that file is the next and last call, the
    answer is 500 Internal Server Error, and the repository is as it was:
    the playlist keeps the [ImagePath] it had. *)
Theorem upload_commit_failure env r w evs w' resp pls' :
  run (uploadPlaylistImage env r) w = (evs, w', resp) ->
  EvPut pls' false ∈ evs ->
  exists pls dir img pre removed,
    repo w !! playlistId r = Some pls
    /\ playlistImagePath (DataFolder env) (playlistId r) = (dir, true)
    /\ let destPath := filepath.Join [dir; coverName] in
       pls' = Playlist.setImagePath pls destPath
       /\ evs = pre ++ [EvSave img destPath true; EvPut pls' false;
                        EvRemove destPath removed]
       /\ resp = internalServerError
       /\ repo w' = repo w
       /\ repo w' !! playlistId r = Some pls.
Proof.
  intros Hrun Hin. rewrite run_upload in Hrun. unfold uploadOutcome in Hrun.
  repeat case_match; simplify_eq; elem_cases Hin.
  all: injection Hin as ->.
  all: match goal with H : negb ?b = false |- _ => destruct b; [clear H|done] end.
  all: match goal with
       | |- context [(?pre ++ [EvMkdirAll ?dir true; EvSave ?img _ _; _; EvRemove _ ?rm])] =>
           eexists _, dir, img, (pre ++ [EvMkdirAll dir true]), rm
       end.
  all: repeat split; try done.
  all: by rewrite <- !app_assoc.
Qed.

(** ** Sample worlds *)

(** Storage root [/data]; every call succeeds; the empty byte stream
    does not decode, any other decodes to a 2000 x 1000 image, which the
    resampling turns into a 1200 x 600 one. *)
Definition sampleEnv : Env :=
  {| DataFolder := str "/data";
     CoverJpegQuality := 75;
     getFails := fun _ => false;
     putFails := fun _ => false;
     now := 1700000000;
     decode := fun file => if file is [] then None else Some (mkImage 2000 1000 1);
     fit := fun img _ _ => mkImage 1200 600 (pixels img);
     mkdirAllFails := fun _ => false;
     saveFails := fun _ => false;
     removeFails := fun _ => false;
     removeAllFails := fun _ => false |}.

(** The same, with a repository that refuses every write. *)
Definition samplePutFails : Env :=
  {| DataFolder := DataFolder sampleEnv;
     CoverJpegQuality := CoverJpegQuality sampleEnv;
     getFails := getFails sampleEnv;
     putFails := fun _ => true;
     now := now sampleEnv;
     decode := decode sampleEnv;
     fit := fit sampleEnv;
     mkdirAllFails := mkdirAllFails sampleEnv;
     saveFails := saveFails sampleEnv;
     removeFails := removeFails sampleEnv;
     removeAllFails := removeAllFails sampleEnv |}.

(** The same as [sampleEnv], with a file system that refuses to remove
    directories. *)
Definition sampleRemoveAllFails : Env :=
  {| DataFolder := DataFolder sampleEnv;
     CoverJpegQuality := CoverJpegQuality sampleEnv;
     getFails := getFails sampleEnv;
     putFails := putFails sampleEnv;
     now := now sampleEnv;
     decode := decode sampleEnv;
     fit := fit sampleEnv;
     mkdirAllFails := mkdirAllFails sampleEnv;
     saveFails := saveFails sampleEnv;
     removeFails := removeFails sampleEnv;
     removeAllFails := fun _ => true |}.

Definition u1 : User.t := {| User.ID := str "u1"; User.IsAdmin := false |}.
Definition u2 : User.t := {| User.ID := str "u2"; User.IsAdmin := false |}.

(** [p1] has no image, [p2] has one, and a playlist whose id is [..]
    has one recorded too. *)
Definition p1 : Playlist.t :=
  {| Playlist.ID := str "p1"; Playlist.OwnerID := str "u1";
     Playlist.ImagePath := []; Playlist.UpdatedAt := 0 |}.

Definition p2 : Playlist.t :=
  {| Playlist.ID := str "p2"; Playlist.OwnerID := str "u1";
     Playlist.ImagePath := str "/data/playlist-images/p2/cover.jpg";
     Playlist.UpdatedAt := 0 |}.

Definition pDots : Playlist.t :=
  {| Playlist.ID := str ".."; Playlist.OwnerID := str "u1";
     Playlist.ImagePath := str "/data/cover.jpg"; Playlist.UpdatedAt := 0 |}.

Definition sampleWorld : World :=
  {| repo := <[str "p1" := p1]> (<[str "p2" := p2]> (<[str ".." := pDots]> ∅));
     fs := <[str "/data/playlist-images/p2/cover.jpg" := File (mkImage 10 10 0) 75]>
             (<[str "/data/playlist-images/p2" := Dir]>
                (<[str "/data/playlist-images" := Dir]> (<[str "/data" := Dir]> ∅))) |}.

Definition sampleRequest (id : string) (u : User.t) (file : string) : Request :=
  {| playlistId := str id; user := Some u; bodySize := 1000; formOK := true;
     imageFile := Some (str file) |}.

Lemma forbidden_no_effect_witness :
  run (uploadPlaylistImage sampleEnv (sampleRequest "p1" u2 "img")) sampleWorld
  = ([EvGet (str "p1") (inl p1)], sampleWorld, forbidden)
  /\ run (deletePlaylistImage sampleEnv (sampleRequest "p1" u2 "img")) sampleWorld
     = ([EvGet (str "p1") (inl p1)], sampleWorld, forbidden).
Proof.
  apply (forbidden_no_effect sampleEnv (sampleRequest "p1" u2 "img") sampleWorld p1 u2);
    [reflexivity|by vm_compute|reflexivity|discriminate|reflexivity].
Defined.

Lemma upload_commit_failure_witness :
  let out := run (uploadPlaylistImage samplePutFails (sampleRequest "p1" u1 "img"))
                 sampleWorld in
  out.2 = internalServerError /\ repo out.1.2 = repo sampleWorld.
Proof.
  intros out.
  destruct (upload_commit_failure samplePutFails (sampleRequest "p1" u1 "img")
              sampleWorld out.1.1 out.1.2 out.2
              (Playlist.setImagePath p1 (str "/data/playlist-images/p1/cover.jpg")))
    as (pls & dir & img & pre & removed & _ & _ & _ & _ & Hresp & Hrepo & _).
  - subst out. by destruct (run _ _) as [[? ?] ?].
  - vm_compute. do 5 apply list_elem_of_further. apply list_elem_of_here.
  - split; [exact Hresp|exact Hrepo].
Defined.

(** The place of each outside call in an upload. *)
Definition uploadStep (e : Event) : nat :=
  match e with
  | EvGet _ _ => 0
  | EvDecode _ _ => 1
  | EvFit _ => 2
  | EvMkdirAll _ _ => 3
  | EvSave _ _ _ => 4
  | EvPut _ _ => 5
  | EvRemove _ _ => 6
  | EvRemoveAll _ _ => 7
  end.

(** C3, as the code has it.  An upload makes its outside calls in the
    order [Get], [Decode], [Fit], [MkdirAll], [Save], [Put], [Remove]:
    the image is decoded (and resized) before the path is resolved.  When
    the playlist id resolves to an unsafe path, nothing is created, saved
    or committed and the world is as before; the answer is 400 "invalid
    playlist id" exactly when the image had been decoded, and an upload
    whose bytes do not decode is answered 400 "invalid image file". *)
Theorem upload_order env r w evs w' resp :
  run (uploadPlaylistImage env r) w = (evs, w', resp) ->
  StronglySorted lt (uploadStep <$> evs)
  /\ (snd (playlistImagePath (DataFolder env) (playlistId r)) = false ->
      Forall (fun e => uploadStep e < 3) evs
      /\ w' = w
      /\ (resp = invalidPlaylistID <-> exists file img, EvDecode file (Some img) ∈ evs)
      /\ (forall file, EvDecode file None ∈ evs -> resp = invalidImageFile)).
Proof.
  intros Hrun. rewrite run_upload in Hrun. unfold uploadOutcome in Hrun.
  repeat case_match; simplify_eq; simpl.
  all: split; [repeat constructor; simpl; lia|].
  all: intros Hunsafe;
    try match goal with
        | H : playlistImagePath _ _ = _ |- _ => rewrite H in Hunsafe
        end;
    try (simpl in *; congruence);
    try match goal with
        | H : negb ?b = false |- _ => destruct b; simpl in *; discriminate
        end.
  all: split; [repeat constructor; simpl; lia|].
  all: split; [done|].
  all: split;
    [split; [try done|intros (file & img & Hin); elem_cases Hin; done]
    |intros file Hin; elem_cases Hin; done].
  all: intros _; eexists _, _; apply list_elem_of_further, list_elem_of_here.
Qed.

Lemma upload_order_witness :
  let out := run (uploadPlaylistImage sampleEnv (sampleRequest ".." u1 "img"))
                 sampleWorld in
  out.1.2 = sampleWorld /\ out.2 = invalidPlaylistID.
Proof.
  intros out.
  destruct (upload_order sampleEnv (sampleRequest ".." u1 "img") sampleWorld
              out.1.1 out.1.2 out.2) as [_ Hunsafe].
  - subst out. by destruct (run _ _) as [[? ?] ?].
  - destruct Hunsafe as (_ & Hw & Hresp & _); [reflexivity|].
    split; [exact Hw|]. apply Hresp.
    exists (str "img"), (mkImage 2000 1000 1). vm_compute.
    apply list_elem_of_further, list_elem_of_here.
Defined.

(** C3 as stated fails: the playlist id [..] resolves to an unsafe path,
    yet an upload of bytes that do not decode is answered "invalid image
    file", after a call to the decoder, and not "invalid playlist id". *)
Lemma upload_decodes_before_resolving :
  playlistImagePath (DataFolder sampleEnv) (str "..") = ([], false)
  /\ run (uploadPlaylistImage sampleEnv (sampleRequest ".." u1 "")) sampleWorld
     = ([EvGet (str "..") (inl pDots); EvDecode [] None], sampleWorld,
        invalidImageFile).
Proof. split; [reflexivity|]. by rewrite run_upload. Qed.

(** C5, as the code has it.  When the [Put] of an upload fails, the
    compensation removes the file [cover.jpg] only: the directory of the
    playlist, which [MkdirAll] made sure exists, is still there
    afterwards (it holds what it held before the upload, or is a new
    directory).  The file is gone when the removal succeeded and is still
    there when it failed. *)
Theorem upload_compensation_keeps_directory env r w evs w' resp pls' :
  run (uploadPlaylistImage env r) w = (evs, w', resp) ->
  EvPut pls' false ∈ evs ->
  exists dir,
    playlistImagePath (DataFolder env) (playlistId r) = (dir, true)
    /\ let destPath := dir ++ [Separator] ++ coverName in
       Playlist.ImagePath pls' = destPath
       /\ fs w' !! dir = Some (default Dir (fs w !! dir))
       /\ (EvRemove destPath true ∈ evs -> fs w' !! destPath = None)
       /\ (EvRemove destPath false ∈ evs ->
           exists img, fs w' !! destPath = Some (File img (CoverJpegQuality env))).
Proof.
  intros Hrun Hin. rewrite run_upload in Hrun. unfold uploadOutcome in Hrun.
  repeat case_match; simplify_eq; elem_cases Hin.
  all: injection Hin as ->.
  all: match goal with H : negb ?b = false |- _ => destruct b; [clear H|done] end.
  all: match goal with
       | H : playlistImagePath _ _ = (?d, true) |- _ =>
           exists d; split; [done|]; rewrite (destPath_spec _ _ _ H) in *;
           assert (Hne : d ++ [Separator] ++ coverName <> d)
             by (intros E; apply (f_equal length) in E;
                 rewrite length_app in E; simpl in E; lia)
       end.
  all: cbn zeta; split; [done|]; simpl fs.
  all: split; [|split; intros Hrm; elem_cases Hrm].
  all: rewrite ?lookup_delete_ne, ?lookup_insert_ne by done.
  all: try apply lookup_mkdirAll.
  all: try (by rewrite lookup_delete_eq).
  all: eexists; by rewrite lookup_insert_eq.
Qed.

Lemma upload_compensation_keeps_directory_witness :
  let out := run (uploadPlaylistImage samplePutFails (sampleRequest "p1" u1 "img"))
                 sampleWorld in
  exists dir,
    playlistImagePath (str "/data") (str "p1") = (dir, true)
    /\ fs out.1.2 !! dir = Some Dir.
Proof.
  intros out.
  destruct (upload_compensation_keeps_directory samplePutFails
              (sampleRequest "p1" u1 "img") sampleWorld out.1.1 out.1.2 out.2
              (Playlist.setImagePath p1 (str "/data/playlist-images/p1/cover.jpg")))
    as (dir & Hdir & _ & Hfs & _).
  - subst out. by destruct (run _ _) as [[? ?] ?].
  - vm_compute. do 5 apply list_elem_of_further. apply list_elem_of_here.
  - exists dir. split; [exact Hdir|]. rewrite Hfs.
    change (playlistImagePath (DataFolder samplePutFails)
              (playlistId (sampleRequest "p1" u1 "img")) = (dir, true)) in Hdir.
    vm_compute in Hdir. injection Hdir as <-. by vm_compute.
Defined.

(** C5 as stated fails: after an upload for [p1] whose [Put] failed and
    whose compensating removal succeeded, the directory
    [/data/playlist-images/p1] exists; only [cover.jpg] is gone. *)
Lemma upload_compensation_leaves_directory :
  let out := run (uploadPlaylistImage samplePutFails (sampleRequest "p1" u1 "img"))
                 sampleWorld in
  EvPut (Playlist.setImagePath p1 (str "/data/playlist-images/p1/cover.jpg")) false
    ∈ out.1.1
  /\ EvRemove (str "/data/playlist-images/p1/cover.jpg") true ∈ out.1.1
  /\ fs sampleWorld !! str "/data/playlist-images/p1" = None
  /\ fs out.1.2 !! str "/data/playlist-images/p1" = Some Dir
  /\ fs out.1.2 !! str "/data/playlist-images/p1/cover.jpg" = None.
Proof.
  vm_compute. split; [|split; [|done]].
  - do 5 apply list_elem_of_further. apply list_elem_of_here.
  - do 6 apply list_elem_of_further. apply list_elem_of_here.
Qed.

(** C6.  In a removal on a playlist with an image, a failure of
    [RemoveAll] does not stop the handler: the [Put] that clears
    [ImagePath] is the next call, and the record it is handed has an
    empty [ImagePath] (id and owner as before).  When that [Put] succeeds
    the answer is the success response and the record stored under the
    playlist's id has an empty [ImagePath], while the file system is as
    before; when it fails the answer is 500 and nothing has changed. *)
Theorem remove_continues_after_failed_delete env r w pls u dir :
  getFails env (playlistId r) = false ->
  repo w !! playlistId r = Some pls ->
  user r = Some u -> authorized pls u ->
  Playlist.ImagePath pls <> [] ->
  playlistImagePath (DataFolder env) (playlistId r) = (dir, true) ->
  removeAllFails env dir = true ->
  let cleared := Playlist.setImagePath pls [] in
  let out := run (deletePlaylistImage env r) w in
  (Playlist.ImagePath cleared = []
   /\ Playlist.ID cleared = Playlist.ID pls
   /\ Playlist.OwnerID cleared = Playlist.OwnerID pls)
  /\ (putFails env cleared = false ->
      out
      = ([EvGet (playlistId r) (inl pls); EvRemoveAll dir false; EvPut cleared true],
         {| repo := <[Playlist.ID pls := Playlist.setUpdatedAt cleared (now env)]> (repo w);
            fs := fs w |},
         jsonID (playlistId r))
      /\ Playlist.ImagePath <$> repo out.1.2 !! Playlist.ID pls = Some [])
  /\ (putFails env cleared = true ->
      out
      = ([EvGet (playlistId r) (inl pls); EvRemoveAll dir false; EvPut cleared false],
         w, internalServerError)
      /\ Playlist.ImagePath <$> repo out.1.2 !! playlistId r
         = Some (Playlist.ImagePath pls)).
Proof.
  intros Hget Hpls Hu Hauth Himg Hdir Hrm cleared out.
  pose proof (remove_with_image env r w pls u Hget Hpls Hu Hauth Himg) as Hrun.
  rewrite Hdir, Hrm in Hrun. cbn zeta in Hrun. fold cleared in Hrun.
  split; [done|].
  split; intros Hput; rewrite Hput in Hrun; subst out; rewrite Hrun;
    (split; [reflexivity|]); cbn [fst snd repo andb negb].
  - by rewrite lookup_insert_eq.
  - by rewrite Hpls.
Qed.

Lemma remove_continues_after_failed_delete_witness :
  let out := run (deletePlaylistImage sampleRemoveAllFails (sampleRequest "p2" u1 ""))
                 sampleWorld in
  out.2 = jsonID (str "p2")
  /\ Playlist.ImagePath <$> repo out.1.2 !! str "p2" = Some []
  /\ fs out.1.2 = fs sampleWorld.
Proof.
  intros out.
  destruct (remove_continues_after_failed_delete sampleRemoveAllFails
              (sampleRequest "p2" u1 "") sampleWorld p2 u1
              (str "/data/playlist-images/p2")) as (_ & Hok & _);
    [reflexivity|by vm_compute|reflexivity|by left|discriminate
    |reflexivity|reflexivity|].
  destruct Hok as [Hrun Hpath]; [reflexivity|].
  fold out in Hrun, Hpath. split; [by rewrite Hrun|]. split; [exact Hpath|].
  by rewrite Hrun.
Defined.



(** The resize guard: the decoded image is handed to [imaging.Fit]
    exactly when one of its dimensions exceeds [maxImageDimension], and
    the image saved is the decoded one otherwise.  What [imaging.Fit]
    returns and what the JPEG encoder writes are outside this model. *)
Lemma upload_resize_guard env r w evs w' resp file img0 :
  run (uploadPlaylistImage env r) w = (evs, w', resp) ->
  EvDecode file (Some img0) ∈ evs ->
  (EvFit img0 ∈ evs
   <-> (maxImageDimension < Dx img0 \/ maxImageDimension < Dy img0)%Z)
  /\ (forall img path ok, EvSave img path ok ∈ evs ->
      img = if oversized img0
            then fit env img0 maxImageDimension maxImageDimension
            else img0).
Proof.
  intros Hrun Hin. rewrite run_upload in Hrun. unfold uploadOutcome in Hrun.
  rewrite <- !Z.ltb_lt, <- orb_true_iff. fold (oversized img0).
  repeat case_match; simplify_eq; try congruence; elem_cases Hin.
  all: injection Hin as -> ->; simpl; try congruence.
  all: split;
    [split; [intros Hfit; elem_cases Hfit; done|]
    |intros img path ok Hsave; elem_cases Hsave; injection Hsave as -> _ _].
  all: try (intros _; do 2 apply list_elem_of_further; apply list_elem_of_here).
  all: try (intros ?; congruence).
  all: done.
Qed.



End HandlerProps.

(* ===================================================================== *)
(** * Further properties of the handlers *)
(* ===================================================================== *)

Module HandlerExtras.
Import filepath CleanElems ImagePath HandlerProps.

Definition playlistNotFound : Response :=
  {| status := StatusNotFound; payload := ErrorText "playlist not found" |}.

Definition unauthorized : Response :=
  {| status := StatusUnauthorized; payload := ErrorText "unauthorized" |}.

Definition fileTooLarge : Response :=
  {| status := StatusBadRequest; payload := ErrorText "file too large (max 5MB)" |}.

(** The run of [deletePlaylistImage] written out, decision after
    decision. *)
Definition deleteOutcome (env : Env) (r : Request) (w : World)
  : list Event * World * Response :=
  let id := playlistId r in
  if getFails env id
  then ([EvGet id (inr ErrOther)], w, internalServerError)
  else
  match repo w !! id with
  | None => ([EvGet id (inr ErrNotFound)], w, playlistNotFound)
  | Some pls =>
  let get := EvGet id (inl pls) in
  match user r with
  | None => ([get], w, unauthorized)
  | Some u =>
  if bool_decide (Playlist.OwnerID pls <> User.ID u) && negb (User.IsAdmin u)
  then ([get], w, forbidden)
  else if bool_decide (Playlist.ImagePath pls = [])
  then ([get], w, noCustomImage)
  else
  let '(dir, safe) := playlistImagePath (DataFolder env) id in
  let removed := safe && negb (removeAllFails env dir) in
  let calls := if safe then [EvRemoveAll dir (negb (removeAllFails env dir))] else [] in
  let w1 :=
    if removed
    then {| repo := repo w;
            fs := filter (fun kv => underDir dir kv.1 = false) (fs w) |}
    else w in
  let cleared := Playlist.setImagePath pls [] in
  if putFails env cleared
  then ([get] ++ calls ++ [EvPut cleared false], w1, internalServerError)
  else ([get] ++ calls ++ [EvPut cleared true],
        {| repo := <[Playlist.ID pls := Playlist.setUpdatedAt cleared (now env)]> (repo w1);
           fs := fs w1 |},
        jsonID id)
  end end.

Lemma run_delete env r w :
  run (deletePlaylistImage env r) w = deleteOutcome env r w.
Proof.
  unfold run, deletePlaylistImage, deleteOutcome, bind, Get. cbn beta zeta.
  destruct (getFails env (playlistId r)); [done|].
  destruct (repo w !! playlistId r) as [pls|]; [|done].
  destruct (user r) as [u|]; [|done]. simpl.
  destruct (bool_decide (Playlist.OwnerID pls <> User.ID u) && negb (User.IsAdmin u));
    [done|]. simpl.
  destruct (bool_decide (Playlist.ImagePath pls = [])); [done|]. simpl.
  destruct (playlistImagePath (DataFolder env) (playlistId r)) as [dir safe].
  destruct safe; simpl.
  - unfold RemoveAll, Put.
    destruct (removeAllFails env dir); simpl;
      destruct (putFails env (Playlist.setImagePath pls [])); done.
  - unfold Put. destruct (putFails env (Playlist.setImagePath pls [])); done.
Qed.




(** X2.  Neither handler ever changes the record of another playlist,
    and a handler that does not answer 200 changes no record at all. *)
Theorem repository_frame env r w :
  let up := run (uploadPlaylistImage env r) w in
  let del := run (deletePlaylistImage env r) w in
  (forall pls key,
      repo w !! playlistId r = Some pls -> key <> Playlist.ID pls ->
      repo up.1.2 !! key = repo w !! key /\ repo del.1.2 !! key = repo w !! key)
  /\ (status up.2 <> StatusOK -> repo up.1.2 = repo w)
  /\ (status del.2 <> StatusOK -> repo del.1.2 = repo w).
Proof.
  intros up del. subst up del. rewrite run_upload, run_delete.
  unfold uploadOutcome, deleteOutcome.
  split; [intros pls key Hpls Hkey; rewrite Hpls; split|split; intros Hst].
  all: repeat case_match; simplify_eq; simpl in *; try done.
  all: by rewrite lookup_insert_ne.
Qed.

Lemma repository_frame_witness :
  let up := run (uploadPlaylistImage sampleEnv (sampleRequest "p1" u1 "img")) sampleWorld in
  repo up.1.2 !! str "p2" = Some p2.
Proof.
  intros up.
  destruct (repository_frame sampleEnv (sampleRequest "p1" u1 "img") sampleWorld)
    as [Hother _].
  destruct (Hother p1 (str "p2")) as [Hup _]; [by vm_compute|discriminate|].
  subst up. rewrite Hup. by vm_compute.
Defined.

(** X3.  An upload whose bytes do not decode is answered 400 "invalid
    image file" right after the decoder call, and leaves the repository
    and the file system exactly as they were. *)
Theorem upload_undecodable env r w evs w' resp file :
  run (uploadPlaylistImage env r) w = (evs, w', resp) ->
  EvDecode file None ∈ evs ->
  resp = invalidImageFile /\ w' = w
  /\ exists pls, evs = [EvGet (playlistId r) (inl pls); EvDecode file None].
Proof.
  intros Hrun Hin. rewrite run_upload in Hrun. unfold uploadOutcome in Hrun.
  repeat case_match; simplify_eq; elem_cases Hin.
  injection Hin as ->. eauto.
Qed.

Lemma upload_undecodable_witness :
  let out := run (uploadPlaylistImage sampleEnv (sampleRequest "p1" u1 "")) sampleWorld in
  out.2 = invalidImageFile /\ out.1.2 = sampleWorld.
Proof.
  intros out.
  destruct (upload_undecodable sampleEnv (sampleRequest "p1" u1 "") sampleWorld
              out.1.1 out.1.2 out.2 []) as (Hresp & Hw & _).
  - subst out. by destruct (run _ _) as [[? ?] ?].
  - vm_compute. apply list_elem_of_further, list_elem_of_here.
  - by split.
Defined.

(** X4.  When [MkdirAll] or [Save] fails, the upload is answered 500,
    no [Put] and no [Remove] is attempted and the repository is as it
    was; whatever existed on the file system, the playlist's [cover.jpg]
    apart, is still there. *)
Theorem upload_io_failure env r w evs w' resp :
  run (uploadPlaylistImage env r) w = (evs, w', resp) ->
  (exists dir, EvMkdirAll dir false ∈ evs)
  \/ (exists img path, EvSave img path false ∈ evs) ->
  resp = internalServerError
  /\ repo w' = repo w
  /\ (forall pls ok, EvPut pls ok ∉ evs)
  /\ (forall path ok, EvRemove path ok ∉ evs)
  /\ (forall path n,
        path <> (playlistImagePath (DataFolder env) (playlistId r)).1
                ++ [Separator] ++ coverName ->
        fs w !! path = Some n -> fs w' !! path = Some n).
Proof.
  intros Hrun Hin. rewrite run_upload in Hrun. unfold uploadOutcome in Hrun.
  repeat case_match; simplify_eq.
  all: destruct Hin as [[? Hin]|(? & ? & Hin)]; elem_cases Hin.
  all: simpl; repeat split; try done.
  all: try (intros ? ? Hx; elem_cases Hx; done).
  all: intros path n _ Hn; by apply lookup_union_Some_l.
Qed.

Lemma upload_io_failure_witness :
  let env :=
    {| DataFolder := DataFolder sampleEnv;
       CoverJpegQuality := CoverJpegQuality sampleEnv;
       getFails := getFails sampleEnv; putFails := putFails sampleEnv;
       now := now sampleEnv; decode := decode sampleEnv; fit := fit sampleEnv;
       mkdirAllFails := mkdirAllFails sampleEnv; saveFails := fun _ => true;
       removeFails := removeFails sampleEnv;
       removeAllFails := removeAllFails sampleEnv |} in
  let out := run (uploadPlaylistImage env (sampleRequest "p1" u1 "img")) sampleWorld in
  out.2 = internalServerError /\ repo out.1.2 = repo sampleWorld.
Proof.
  intros env out.
  destruct (upload_io_failure env (sampleRequest "p1" u1 "img") sampleWorld
              out.1.1 out.1.2 out.2) as (Hresp & Hrepo & _).
  - subst out. by destruct (run _ _) as [[? ?] ?].
  - right. exists (mkImage 1200 600 1), (str "/data/playlist-images/p1/cover.jpg").
    vm_compute. do 4 apply list_elem_of_further. apply list_elem_of_here.
  - by split.
Defined.

(** X5.  Whether the playlist exists is decided before the caller is
    looked at: for an unknown id both handlers answer 404 "playlist not
    found" whoever calls, even with no user in the context, and for a
    known id a request without a user is answered 401.  The [Get] is the
    only call and the world is as before. *)
Theorem existence_before_authentication env r w :
  getFails env (playlistId r) = false ->
  (repo w !! playlistId r = None ->
   run (uploadPlaylistImage env r) w
   = ([EvGet (playlistId r) (inr ErrNotFound)], w, playlistNotFound)
   /\ run (deletePlaylistImage env r) w
      = ([EvGet (playlistId r) (inr ErrNotFound)], w, playlistNotFound))
  /\ (forall pls, repo w !! playlistId r = Some pls -> user r = None ->
      run (uploadPlaylistImage env r) w
      = ([EvGet (playlistId r) (inl pls)], w, unauthorized)
      /\ run (deletePlaylistImage env r) w
         = ([EvGet (playlistId r) (inl pls)], w, unauthorized)).
Proof.
  intros Hget. rewrite run_upload, run_delete. unfold uploadOutcome, deleteOutcome.
  rewrite Hget. split.
  - by intros ->.
  - intros pls -> ->. done.
Qed.

Lemma existence_before_authentication_witness :
  run (deletePlaylistImage sampleEnv
         {| playlistId := str "nope"; user := None; bodySize := 0;
            formOK := true; imageFile := None |}) sampleWorld
  = ([EvGet (str "nope") (inr ErrNotFound)], sampleWorld, playlistNotFound).
Proof.
  destruct (existence_before_authentication sampleEnv
              {| playlistId := str "nope"; user := None; bodySize := 0;
                 formOK := true; imageFile := None |} sampleWorld eq_refl)
    as [Hnone _].
  destruct Hnone as [_ Hdel]; [by vm_compute|exact Hdel].
Defined.

(** X6.  A form that does not parse is never decoded.  The limit is
    5 MiB; whenever [ParseMultipartForm] fails, on a body over the limit
    as on a malformed form within it, the upload makes no decoder call,
    leaves the world as it was and is not answered 200, and a caller
    allowed to modify the playlist is told "file too large (max 5MB)"
    in both cases. *)
Theorem upload_form_rejected env r w :
  maxUploadSize = 5242880%Z
  /\ (parseMultipartFormFails r = true ->
      let out := run (uploadPlaylistImage env r) w in
      (forall file res, EvDecode file res ∉ out.1.1)
      /\ out.1.2 = w /\ status out.2 <> StatusOK
      /\ (forall pls u,
            getFails env (playlistId r) = false ->
            repo w !! playlistId r = Some pls ->
            user r = Some u -> authorized pls u ->
            out.2 = fileTooLarge)).
Proof.
  split; [done|]. intros Hparse out. subst out.
  rewrite run_upload. unfold uploadOutcome. rewrite Hparse.
  split; [|split; [|split]].
  - repeat case_match; simpl; intros ? ? Hx; elem_cases Hx.
  - by repeat case_match.
  - by repeat case_match.
  - intros pls u -> -> -> Hauth. by rewrite (authorized_check _ _ Hauth).
Qed.

Lemma upload_form_rejected_witness :
  let r := {| playlistId := str "p1"; user := Some u1; bodySize := 10;
              formOK := false; imageFile := Some (str "img") |} in
  (run (uploadPlaylistImage sampleEnv r) sampleWorld).2 = fileTooLarge.
Proof.
  intros r.
  destruct (upload_form_rejected sampleEnv r sampleWorld) as [_ Hform].
  destruct Hform as (_ & _ & _ & Hresp); [reflexivity|].
  apply (Hresp p1 u1); [reflexivity|by vm_compute|reflexivity|by left].
Defined.

(** ** What the handlers touch on the file system *)

Lemma elem_of_dirsFrom_inv rest : forall pre d,
  d ∈ dirsFrom pre rest ->
  d = pre ++ rest \/ exists a b, rest = a ++ Separator :: b /\ d = pre ++ a.
Proof.
  induction rest as [|c rest IH]; intros pre d Hd; simpl in Hd.
  - apply list_elem_of_singleton in Hd as ->. left. by rewrite app_nil_r.
  - apply elem_of_app in Hd as [Hd|Hd].
    + destruct (isSep c) eqn:Hc; simpl in Hd; [|by apply elem_of_nil in Hd].
      case_bool_decide; simpl in Hd; [by apply elem_of_nil in Hd|].
      apply list_elem_of_singleton in Hd as ->. apply isSep_true in Hc as ->.
      right. exists [], rest. by rewrite app_nil_r.
    + destruct (IH _ _ Hd) as [->|(a & b & -> & ->)].
      * left. by rewrite <- app_assoc.
      * right. exists (c :: a), b. by rewrite <- app_assoc.
Qed.

Lemma lookup_mkdirAll_cases (m : gmap gostring Node) dir path :
  let m' := m ∪ list_to_map ((fun d => (d, Dir)) <$> dirsOf dir) in
  m' !! path = m !! path
  \/ (m !! path = None /\ m' !! path = Some Dir
      /\ (path = dir \/ exists rest, dir = path ++ Separator :: rest)).
Proof.
  intros m'. subst m'. destruct (m !! path) as [n|] eqn:E.
  - left. by erewrite lookup_union_Some_l.
  - rewrite lookup_union_r by done.
    destruct (list_to_map ((fun d => (d, Dir)) <$> dirsOf dir) !! path)
      as [n|] eqn:F; [|by left].
    right. apply elem_of_list_to_map_2, list_elem_of_fmap in F as (d & [= -> ->] & Hd).
    split; [done|]. split; [done|].
    apply elem_of_dirsFrom_inv in Hd as [->|(a & b & -> & ->)]; [by left|].
    right. by exists b.
Qed.

Lemma lookup_removeAll_out (m : gmap gostring Node) dir path :
  underDir dir path = false ->
  filter (fun kv => underDir dir kv.1 = false) m !! path = m !! path.
Proof.
  intros Hout. destruct (m !! path) as [n|] eqn:E.
  - by apply map_lookup_filter_Some_2.
  - apply map_lookup_filter_None_2. by left.
Qed.

Lemma lookup_removeAll_in (m : gmap gostring Node) dir path :
  underDir dir path = true ->
  filter (fun kv => underDir dir kv.1 = false) m !! path = None.
Proof.
  intros Hin. apply map_lookup_filter_None_2. right. intros n _. simpl. congruence.
Qed.

(** An accepted directory starts with the cleaned base directory and a
    separator. *)
Lemma accepted_under_base root id dir :
  playlistImagePath root id = (dir, true) ->
  exists rest, dir = Clean (Join [root; playlistImageDir]) ++ [Separator] ++ rest.
Proof.
  unfold playlistImagePath.
  destruct (strings.HasPrefix _ _) eqn:E; cbn [negb]; [|done].
  intros [= <-]. apply HasPrefix_spec in E as [rest E]. exists rest.
  by rewrite E, <- app_assoc.
Qed.

Lemma underDir_spec dir path :
  underDir dir path = true
  <-> path = dir \/ exists rest, path = dir ++ [Separator] ++ rest.
Proof.
  unfold underDir. rewrite orb_true_iff, bool_decide_eq_true, HasPrefix_spec.
  split; (intros [?|[rest ?]]; [by left|right; exists rest]).
  - by rewrite <- app_assoc in *.
  - by rewrite <- app_assoc.
Qed.

(** X7.  An upload never deletes or overwrites anything but the
    playlist's own [cover.jpg]: every other path holds afterwards what it
    held before, except that the playlist's directory and the
    directories above it are created when they were missing. *)
Theorem upload_touches_only_cover env r w path :
  let out := run (uploadPlaylistImage env r) w in
  let dir := (playlistImagePath (DataFolder env) (playlistId r)).1 in
  fs out.1.2 !! path = fs w !! path
  \/ path = dir ++ [Separator] ++ coverName
  \/ (fs w !! path = None /\ fs out.1.2 !! path = Some Dir
      /\ (path = dir \/ exists rest, dir = path ++ Separator :: rest)).
Proof.
  intros out dir. subst out dir. rewrite run_upload. unfold uploadOutcome.
  repeat case_match; simplify_eq; try congruence; simpl; try (by left).
  all: match goal with H : negb ?b = false |- _ => destruct b; [clear H|done] end.
  all: try match goal with
       | H : playlistImagePath _ _ = (?d, true) |- _ =>
           rewrite (destPath_spec _ _ _ H) in *
       end.
  all: match goal with
       | |- context [(?d ++ [Separator] ++ coverName)] =>
           destruct (decide (path = d ++ [Separator] ++ coverName)) as [->|Hne];
           [right; by left|]
       | _ => idtac
       end.
  all: rewrite ?lookup_delete_ne, ?lookup_insert_ne by done.
  all: destruct (lookup_mkdirAll_cases (fs w) l0 path) as [->|?];
    [by left|right; by right].
Qed.

(** X8.  A removal only deletes, and only below the playlist-images
    directory: whatever the playlist id and the storage root, every path
    whose content changes is gone afterwards and starts with the cleaned
    base directory followed by a separator. *)
Theorem remove_confined env r w path :
  let out := run (deletePlaylistImage env r) w in
  let base := Clean (Join [DataFolder env; playlistImageDir]) in
  fs out.1.2 !! path = fs w !! path
  \/ (fs out.1.2 !! path = None
      /\ strings.HasPrefix path (base ++ [Separator]) = true).
Proof.
  intros out base. subst out. rewrite run_delete. unfold deleteOutcome.
  repeat case_match; simplify_eq; try congruence; simpl; try (by left).
  all: destruct (underDir l path) eqn:Hin;
    [right|left; by apply lookup_removeAll_out].
  all: split; [by apply lookup_removeAll_in|].
  all: match goal with
       | H : playlistImagePath _ _ = (_, true) |- _ =>
           apply accepted_under_base in H as [rest ->]
       end.
  all: fold base; apply HasPrefix_spec.
  all: apply underDir_spec in Hin as [->|[x ->]];
    [exists rest|exists (rest ++ [Separator] ++ x)]; by rewrite <- !app_assoc.
Qed.



(** X10.  A removal whose [RemoveAll] succeeded and whose [Put] then
    failed is answered 500 with the repository unchanged: the record
    keeps its non-empty [ImagePath] although the directory and
    everything below it are gone. *)
Theorem remove_commit_failure env r w evs w' resp dir pls' :
  run (deletePlaylistImage env r) w = (evs, w', resp) ->
  EvRemoveAll dir true ∈ evs -> EvPut pls' false ∈ evs ->
  resp = internalServerError
  /\ repo w' = repo w
  /\ (exists pls, repo w' !! playlistId r = Some pls /\ Playlist.ImagePath pls <> [])
  /\ (forall path, underDir dir path = true -> fs w' !! path = None).
Proof.
  intros Hrun Hrm Hput. rewrite run_delete in Hrun. unfold deleteOutcome in Hrun.
  repeat case_match; simplify_eq; elem_cases Hput; elem_cases Hrm.
  all: injection Hrm as <- Hfail.
  all: match type of Hfail with
       | true = negb ?x => destruct x; simpl in *; try discriminate
       end.
  all: repeat split; try done.
  all: try (eexists; split; [done|];
            eapply bool_decide_eq_false_1; eassumption).
  all: intros path Hunder; by apply lookup_removeAll_in.
Qed.

Lemma remove_commit_failure_witness :
  let out := run (deletePlaylistImage samplePutFails (sampleRequest "p2" u1 ""))
                 sampleWorld in
  out.2 = internalServerError
  /\ repo out.1.2 = repo sampleWorld
  /\ fs out.1.2 !! str "/data/playlist-images/p2/cover.jpg" = None.
Proof.
  intros out.
  destruct (remove_commit_failure samplePutFails (sampleRequest "p2" u1 "") sampleWorld
              out.1.1 out.1.2 out.2 (str "/data/playlist-images/p2")
              (Playlist.setImagePath p2 []))
    as (Hresp & Hrepo & _ & Hfs).
  - subst out. by destruct (run _ _) as [[? ?] ?].
  - vm_compute. apply list_elem_of_further, list_elem_of_here.
  - vm_compute. do 2 apply list_elem_of_further. apply list_elem_of_here.
  - split; [done|]. split; [done|]. apply Hfs. reflexivity.
Defined.

(** The place of each outside call in a removal; 3 stands for the calls
    a removal never makes. *)
Definition deleteStep (e : Event) : nat :=
  match e with
  | EvGet _ _ => 0
  | EvRemoveAll _ _ => 1
  | EvPut _ _ => 2
  | _ => 3
  end.

(** X11.  A removal calls [Get], [RemoveAll] and [Put], in this order
    and at most once each, and nothing else: it never decodes, creates
    or saves anything.  The record it hands to [Put] always has an empty
    [ImagePath]. *)
Theorem remove_calls env r w :
  let evs := (run (deletePlaylistImage env r) w).1.1 in
  StronglySorted lt (deleteStep <$> evs)
  /\ Forall (fun e => deleteStep e < 3) evs
  /\ (forall pls ok, EvPut pls ok ∈ evs -> Playlist.ImagePath pls = []).
Proof.
  intros evs. subst evs. rewrite run_delete. unfold deleteOutcome.
  repeat case_match; simplify_eq; simpl.
  all: split; [repeat constructor; simpl; lia|].
  all: split; [repeat constructor; simpl; lia|].
  all: intros pls ok Hin; elem_cases Hin; by injection Hin as -> _.
Qed.

Lemma remove_calls_witness :
  exists pls,
    EvPut pls true
      ∈ (run (deletePlaylistImage sampleEnv (sampleRequest "p2" u1 "")) sampleWorld).1.1
    /\ Playlist.ImagePath pls = [].
Proof.
  destruct (remove_calls sampleEnv (sampleRequest "p2" u1 "") sampleWorld)
    as (_ & _ & Hput).
  assert (exists e0 e1 pls,
             (run (deletePlaylistImage sampleEnv (sampleRequest "p2" u1 "")) sampleWorld).1.1
             = [e0; e1; EvPut pls true]) as (e0 & e1 & pls & Hevs).
  { vm_compute. by eexists _, _, _. }
  assert (Hin : EvPut pls true
                  ∈ (run (deletePlaylistImage sampleEnv (sampleRequest "p2" u1 ""))
                       sampleWorld).1.1).
  { rewrite Hevs. do 2 apply list_elem_of_further. apply list_elem_of_here. }
  exists pls. split; [exact Hin|exact (Hput pls true Hin)].
Defined.

(** ** Playlists do not share files *)

Lemma noSep_prefix_unique (a : gostring) : forall b x y,
  noSep a -> noSep b -> atElemEnd x = true -> atElemEnd y = true ->
  a ++ x = b ++ y -> a = b.
Proof.
  induction a as [|c a IH]; intros b x y Ha Hb Hx Hy E.
  - destruct b as [|c b]; [done|]. simpl in E. subst x. simpl in Hx.
    inversion_clear Hb. congruence.
  - inversion_clear Ha as [|? ? Hc Ha']. destruct b as [|c' b].
    + simpl in E. subst y. simpl in Hy. congruence.
    + inversion_clear Hb as [|? ? Hc' Hb']. injection E as -> E. f_equal.
      exact (IH b x y Ha' Hb' Hx Hy E).
Qed.

(** An ordinary element is accepted as the directory of that name under
    the base directory. *)
Lemma normal_id_accepted root id :
  normalElem id ->
  playlistImagePath root id
  = (Clean (Join [root; playlistImageDir]) ++ [Separator] ++ id, true).
Proof.
  intros Hid.
  destruct (playlistImagePath_cases root id)
    as (rooted & m0 & ns0 & HB & HT & _ & Hcases).
  assert (ET : fold_left (stepStack rooted) (splitSep id)
                 (m0, playlistImageDir :: ns0)
               = (m0, [id] ++ playlistImageDir :: ns0)).
  { rewrite splitSep_single by apply Hid. destruct Hid as (? & ? & ? & ?).
    cbn [fold_left]. by rewrite stepStack_real. }
  destruct Hcases as [(extra & _ & _ & ET' & ->) | [Hno _]].
  - rewrite ET in ET'. injection ET' as ET'.
    change (id :: playlistImageDir :: ns0)
      with ([id] ++ playlistImageDir :: ns0) in ET'.
    apply app_inv_tail in ET'. by subst.
  - by destruct (Hno [id]).
Qed.

(** The directories of two different ordinary names are disjoint: no
    path is in or below both, and neither is above the other. *)
Lemma normal_dirs_disjoint (base a b path : gostring) :
  normalElem a -> normalElem b -> a <> b ->
  underDir (base ++ [Separator] ++ b) path = true ->
  underDir (base ++ [Separator] ++ a) path = false
  /\ ~ (exists rest, base ++ [Separator] ++ a = path ++ Separator :: rest).
Proof.
  intros (_ & Ha & _) (_ & Hb & _) Hab Hin.
  assert (Hpath : exists x, atElemEnd x = true
                            /\ path = base ++ [Separator] ++ b ++ x).
  { apply underDir_spec in Hin as [->|[x ->]].
    - exists []. by rewrite app_nil_r.
    - exists ([Separator] ++ x). by rewrite <- !app_assoc. }
  destruct Hpath as (x & Hx & ->). split.
  - apply not_true_iff_false. intros Hin'. apply Hab.
    assert (Hy : exists y, atElemEnd y = true
                           /\ base ++ [Separator] ++ b ++ x
                              = base ++ [Separator] ++ a ++ y).
    { apply underDir_spec in Hin' as [E|[y E]].
      - exists []. by rewrite app_nil_r.
      - exists ([Separator] ++ y). split; [done|]. by rewrite E, <- !app_assoc. }
    destruct Hy as (y & Hy & E). do 2 apply app_inv_head in E.
    symmetry. exact (noSep_prefix_unique b a x y Hb Ha Hx Hy E).
  - intros [rest E]. apply Hab.
    rewrite <- !app_assoc in E. do 2 apply app_inv_head in E.
    assert (E' : a ++ [] = b ++ x ++ Separator :: rest) by (by rewrite app_nil_r).
    destruct x as [|c x].
    + by apply (noSep_prefix_unique a b [] (Separator :: rest)).
    + simpl in Hx. apply (noSep_prefix_unique a b [] ((c :: x) ++ Separator :: rest));
        done.
Qed.

(** What a removal leaves alone on the file system. *)
Lemma remove_fs_out env r w path :
  underDir (playlistImagePath (DataFolder env) (playlistId r)).1 path = false ->
  fs (run (deletePlaylistImage env r) w).1.2 !! path = fs w !! path.
Proof.
  rewrite run_delete. unfold deleteOutcome. intros Hout.
  repeat case_match; simplify_eq; try congruence; simpl in *; try done.
  all: by apply lookup_removeAll_out.
Qed.

(** What an upload leaves alone on the file system. *)
Lemma upload_fs_out env r w path :
  let dir := (playlistImagePath (DataFolder env) (playlistId r)).1 in
  underDir dir path = false ->
  ~ (exists rest, dir = path ++ Separator :: rest) ->
  fs (run (uploadPlaylistImage env r) w).1.2 !! path = fs w !! path.
Proof.
  intros dir Hout Habove. subst dir. rewrite run_upload. unfold uploadOutcome.
  repeat case_match; simplify_eq; try congruence; simpl in *; try done.
  all: match goal with H : negb ?b = false |- _ => destruct b; [clear H|done] end.
  all: try match goal with
       | H : playlistImagePath _ _ = (?d, true) |- _ =>
           rewrite (destPath_spec _ _ _ H) in *
       end.
  all: assert (Hdir : path <> l0)
    by (intros ->; apply not_true_iff_false in Hout; apply Hout;
        apply underDir_spec; by left).
  all: try assert (Hdest : l0 ++ [Separator] ++ coverName <> path)
    by (intros <-; apply not_true_iff_false in Hout; apply Hout;
        apply underDir_spec; right; by eexists).
  all: rewrite ?lookup_delete_ne, ?lookup_insert_ne by done.
  all: destruct (lookup_mkdirAll_cases (fs w) l0 path)
    as [->|(_ & _ & [?|?])]; done.
Qed.

(** X12.  Playlists whose ids are made of letters and digits do not
    share files: neither an upload nor a removal for one of them changes
    anything in or below the directory of another. *)
Theorem other_playlist_untouched env r w other path :
  playlistId r <> [] -> other <> [] ->
  forallb ResolveProps.isAlnum (playlistId r) = true ->
  forallb ResolveProps.isAlnum other = true ->
  playlistId r <> other ->
  underDir (playlistImagePath (DataFolder env) other).1 path = true ->
  fs (run (uploadPlaylistImage env r) w).1.2 !! path = fs w !! path
  /\ fs (run (deletePlaylistImage env r) w).1.2 !! path = fs w !! path.
Proof.
  intros Hne1 Hne2 Hal1 Hal2 Hdiff Hin.
  pose proof (ResolveProps.alnum_normalElem _ Hne1 Hal1) as Hn1.
  pose proof (ResolveProps.alnum_normalElem _ Hne2 Hal2) as Hn2.
  rewrite (normal_id_accepted _ _ Hn2) in Hin. cbn [fst] in Hin.
  destruct (normal_dirs_disjoint _ _ _ _ Hn1 Hn2 Hdiff Hin) as [Hout Habove].
  split.
  - apply upload_fs_out; by rewrite (normal_id_accepted _ _ Hn1).
  - apply remove_fs_out. by rewrite (normal_id_accepted _ _ Hn1).
Qed.

Lemma other_playlist_untouched_witness :
  fs (run (deletePlaylistImage sampleEnv (sampleRequest "p1" u1 "")) sampleWorld).1.2
    !! str "/data/playlist-images/p2/cover.jpg"
  = fs sampleWorld !! str "/data/playlist-images/p2/cover.jpg".
Proof.
  apply (other_playlist_untouched sampleEnv (sampleRequest "p1" u1 "") sampleWorld
           (str "p2") (str "/data/playlist-images/p2/cover.jpg"));
    [discriminate|discriminate|reflexivity|reflexivity|discriminate|reflexivity].
Defined.

(** ** Uploads and removals in sequence *)








(** X15.  [filepath.Join] already returns a cleaned path, so the two
    explicit [filepath.Clean] calls of [playlistImagePath] change
    nothing, and an accepted directory is in canonical form: cleaning it
    again gives it back. *)
Theorem playlistImagePath_canonical root id :
  Clean (Join [root; playlistImageDir; id]) = Join [root; playlistImageDir; id]
  /\ Clean (Join [root; playlistImageDir]) = Join [root; playlistImageDir]
  /\ (forall dir, playlistImagePath root id = (dir, true) ->
      dir = Join [root; playlistImageDir; id] /\ Clean dir = dir).
Proof.
  assert (H3 : Clean (Join [root; playlistImageDir; id])
               = Join [root; playlistImageDir; id])
    by (rewrite Join_id; apply Clean_idempotent).
  split; [done|]. split; [rewrite Join_base; apply Clean_idempotent|].
  intros dir. unfold playlistImagePath.
  destruct (strings.HasPrefix _ _); cbn [negb]; [|done].
  intros [= <-]. by rewrite !H3.
Qed.

Lemma playlistImagePath_canonical_witness :
  Clean (str "/data/playlist-images/p1") = str "/data/playlist-images/p1".
Proof.
  destruct (playlistImagePath_canonical (str "/data") (str "p1")) as (_ & _ & H).
  destruct (H (str "/data/playlist-images/p1")) as [_ Hclean]; [reflexivity|].
  exact Hclean.
Defined.

End HandlerExtras.

(* ===================================================================== *)
(** * Properties of the web client *)
(* ===================================================================== *)

Module httpClientProps.
Import httpClient.

Lemma truthy_true s : truthy s = true <-> s <> "".
Proof. unfold truthy. rewrite negb_true_iff. apply String.eqb_neq. Qed.


(** *** Normalised values *)

Lemma stripLeading_length s : String.length (stripLeading s) <= String.length s.
Proof.
  induction s as [|c s IH]; [done|]. cbn [stripLeading].
  destruct (isHTTPWhitespace c); cbn [String.length]; lia.
Qed.

Lemma stripTrailing_length s : String.length (stripTrailing s) <= String.length s.
Proof.
  induction s as [|c s IH]; [done|]. cbn [stripTrailing].
  destruct (stripTrailing s); [destruct (isHTTPWhitespace c)|];
    cbn [String.length] in *; lia.
Qed.

(** A normalised value has no whitespace at either end. *)
Lemma normalize_fixed s :
  normalize s = s -> stripLeading s = s /\ stripTrailing s = s.
Proof.
  unfold normalize. intros H.
  assert (Hlead : stripLeading s = s).
  { destruct s as [|c s]; [done|]. cbn [stripLeading] in *.
    destruct (isHTTPWhitespace c); [|done]. exfalso.
    apply (f_equal String.length) in H. cbn [String.length] in H.
    pose proof (stripTrailing_length (stripLeading s)).
    pose proof (stripLeading_length s). lia. }
  split; [done|]. by rewrite Hlead in H.
Qed.

Lemma stripTrailing_app a t :
  stripTrailing t <> "" -> stripTrailing (a +:+ t) = a +:+ stripTrailing t.
Proof.
  intros Ht. induction a as [|c a IH]; [done|].
  change (String c a +:+ t) with (String c (a +:+ t)).
  change (String c a +:+ stripTrailing t) with (String c (a +:+ stripTrailing t)).
  cbn [stripTrailing]. rewrite IH.
  destruct (a +:+ stripTrailing t) eqn:E; [|done].
  destruct a; [done|discriminate].
Qed.

Lemma stripTrailing_app_blank a t :
  stripTrailing t = "" -> stripTrailing (a +:+ t) = stripTrailing a.
Proof.
  intros Ht. induction a as [|c a IH]; [done|].
  change (String c a +:+ t) with (String c (a +:+ t)).
  cbn [stripTrailing]. by rewrite IH.
Qed.

(** What [Bearer ${token}] is entered as. *)
Lemma normalize_bearer token :
  normalize ("Bearer " +:+ token)
  = match stripTrailing token with
    | EmptyString => "Bearer"
    | t => "Bearer " +:+ t
    end.
Proof.
  unfold normalize. change (stripLeading ("Bearer " +:+ token)) with ("Bearer " +:+ token).
  destruct (stripTrailing token) as [|c t] eqn:E.
  - by rewrite stripTrailing_app_blank.
  - rewrite stripTrailing_app by (by rewrite E). by rewrite E.
Qed.

Lemma isUUIDChar_no_whitespace c : isUUIDChar c = true -> isHTTPWhitespace c = false.
Proof. destruct c as [[] [] [] [] [] [] [] []]; by vm_compute. Qed.

Lemma stripTrailing_no_whitespace s :
  forallb (fun c => negb (isHTTPWhitespace c)) (list_ascii_of_string s) = true ->
  stripTrailing s = s.
Proof.
  induction s as [|c s IH]; [done|]. cbn [list_ascii_of_string forallb stripTrailing].
  intros [Hc Hs]%andb_prop. rewrite (IH Hs).
  destruct s; [|done]. apply negb_true_iff in Hc. by rewrite Hc.
Qed.

(** A uuid is entered as it is. *)
Lemma normalize_uuid s : isUUID s = true -> normalize s = s.
Proof.
  unfold isUUID. intros [_ Hall]%andb_prop.
  assert (Hno : forallb (fun c => negb (isHTTPWhitespace c)) (list_ascii_of_string s)
                = true).
  { apply forallb_forall. intros c Hc. rewrite forallb_forall in Hall.
    by rewrite (isUUIDChar_no_whitespace c (Hall c Hc)). }
  unfold normalize.
  assert (stripLeading s = s) as ->; [|by apply stripTrailing_no_whitespace].
  destruct s as [|c s]; [done|]. cbn [list_ascii_of_string forallb] in Hno.
  apply andb_prop in Hno as [Hc _]. apply negb_true_iff in Hc.
  cbn [stripLeading]. by rewrite Hc.
Qed.


Definition sampleClient : Client :=
  {| clientUniqueId := "3fa85f64-5717-4562-b3fc-2c963f66afa6";
     clientUniqueId_uuid := eq_refl;
     baseUrl := fun url => "/app" +:+ url;
     jwtDecode := fun token => if String.eqb token "bad" then None else Some (Some "u1");
     fetch := fun _ _ =>
       inr {| Resp.status := 400; Resp.headers := Headers_new [];
              Resp.text := "invalid image file"; Resp.json := None |};
     fetchJson := fun _ _ => inl (FetchError "offline") |}.

Definition sampleBrowser : Browser :=
  {| localStorage := {["token" := "tok1"]}; firstTime := true; homeCacheRemovals := 0 |}.


(** What [processTokenRefresh] does, case by case. *)
Lemma processTokenRefresh_cases c (responseHeaders : Headers) b :
  match Headers_get responseHeaders customAuthorizationHeader with
  | None => processTokenRefresh c responseHeaders b = (b, None)
  | Some token =>
      if String.eqb token "" then processTokenRefresh c responseHeaders b = (b, None)
      else match jwtDecode c token with
           | None => processTokenRefresh c responseHeaders b = (b, Some InvalidTokenError)
           | Some uid =>
               processTokenRefresh c responseHeaders b
               = ({| localStorage :=
                       <["userId" := toString uid]> (<["token" := token]> (localStorage b));
                     firstTime := false;
                     homeCacheRemovals := S (homeCacheRemovals b) |}, None)
           end
  end.
Proof.
  unfold processTokenRefresh, truthy.
  destruct (Headers_get responseHeaders customAuthorizationHeader) as [token|]; [|done].
  destruct (String.eqb token ""); [done|]. simpl.
  by destruct (jwtDecode c token).
Qed.

(** A refreshed token that does not decode leaves the browser as it was. *)
Lemma processTokenRefresh_throws c (responseHeaders : Headers) b e :
  (processTokenRefresh c responseHeaders b).2 = Some e ->
  (processTokenRefresh c responseHeaders b).1 = b.
Proof.
  unfold processTokenRefresh. by repeat case_match.
Qed.

(** X17.  A refreshed token is stored only when it decodes: when
    [jwtDecode] throws, the exception leaves [localStorage],
    [config.firstTime] and the home cache as they were; when the response
    has no token, or an empty one, nothing happens at all.  When it
    decodes, [token] and [userId] are the only keys of [localStorage]
    that change. *)
Theorem processTokenRefresh_spec c (responseHeaders : Headers) b :
  let out := processTokenRefresh c responseHeaders b in
  (out.2 <> None -> out.1 = b)
  /\ (out.1 <> b ->
      exists token uid,
        Headers_get responseHeaders customAuthorizationHeader = Some token
        /\ token <> "" /\ jwtDecode c token = Some uid
        /\ localStorage out.1 !! "token" = Some token
        /\ localStorage out.1 !! "userId" = Some (toString uid)
        /\ firstTime out.1 = false)
  /\ (forall key, key <> "token" -> key <> "userId" ->
      localStorage out.1 !! key = localStorage b !! key).
Proof.
  intros out. subst out.
  pose proof (processTokenRefresh_cases c responseHeaders b) as H.
  destruct (Headers_get responseHeaders customAuthorizationHeader) as [token|];
    [|by rewrite H].
  destruct (String.eqb token "") eqn:Hempty; [by rewrite H|].
  apply String.eqb_neq in Hempty.
  destruct (jwtDecode c token) as [uid|] eqn:Hdec; rewrite H; [|done].
  cbn [fst snd localStorage firstTime]. repeat split; try done.
  - intros _. exists token, uid. repeat split; try done.
    + rewrite lookup_insert_ne by done. apply lookup_insert_eq.
    + apply lookup_insert_eq.
  - intros key H1 H2. by rewrite !lookup_insert_ne.
Qed.

Lemma processTokenRefresh_spec_witness :
  (processTokenRefresh sampleClient (Headers_new [(customAuthorizationHeader, "bad")])
     sampleBrowser).1 = sampleBrowser.
Proof.
  destruct (processTokenRefresh_spec sampleClient
              (Headers_new [(customAuthorizationHeader, "bad")]) sampleBrowser)
    as (Hthrow & _).
  apply Hthrow. by vm_compute.
Defined.

(** X18.  A token refreshed by one response is the token the next
    request carries: after [processTokenRefresh] has stored a token, the
    headers set by [setAuthHeaders] hold [Bearer] followed by that very
    token, whatever was stored before. *)
Theorem refreshed_token_is_sent c (responseHeaders headers : Headers) b token uid :
  Headers_get responseHeaders customAuthorizationHeader = Some token ->
  token <> "" -> jwtDecode c token = Some uid ->
  let b' := (processTokenRefresh c responseHeaders b).1 in
  Headers_get (setAuthHeaders c b' headers) customAuthorizationHeader
  = Some ("Bearer " +:+ token).
Proof.
  intros Hget Hne Hdec b'. subst b'.
  pose proof (processTokenRefresh_cases c responseHeaders b) as H.
  rewrite Hget, Hdec in H. apply String.eqb_neq in Hne as Hne'. rewrite Hne' in H.
  rewrite H. cbn [fst]. unfold setAuthHeaders. cbn [localStorage].
  rewrite lookup_insert_ne by done. rewrite lookup_insert_eq.
  apply truthy_true in Hne as Htrue. rewrite Htrue.
  unfold Headers_get, Headers_set. cbn [entries].
  rewrite lookup_insert_eq, normalize_bearer.
  destruct (normalize_fixed token) as [_ ->];
    [exact (entries_normalized responseHeaders _ _ Hget)|].
  by destruct token.
Qed.

Lemma refreshed_token_is_sent_witness :
  Headers_get
    (setAuthHeaders sampleClient
       (processTokenRefresh sampleClient
          (Headers_new [(customAuthorizationHeader, "tok2")]) sampleBrowser).1
       (Headers_new []))
    customAuthorizationHeader
  = Some "Bearer tok2".
Proof.
  apply (refreshed_token_is_sent sampleClient
           (Headers_new [(customAuthorizationHeader, "tok2")])
           (Headers_new []) sampleBrowser "tok2" (Some "u1"));
    [by vm_compute|discriminate|reflexivity].
Defined.

Lemma withAuthHeaders_headers c b (dflt : Headers) options :
  Options.headers (withAuthHeaders c b dflt options)
  = Some (setAuthHeaders c b (default dflt (Options.headers options))).
Proof. by destruct options as [[h|] m body]. Qed.

(** X19.  How an upload request settles.  It is fulfilled only with the
    parsed JSON of a response whose status is in 200..299.  A response
    with another status rejects it with the text of the body as message,
    or with [Request failed with status N] when the body is empty, and a
    token refreshed by that response has been stored all the same.  A
    refreshed token that does not decode rejects it whatever the status,
    the browser left as it was.  A rejected [fetch] is passed on. *)
Theorem httpClientUpload_settles c url options b :
  let out := httpClientUpload c url options b in
  let sent := out.1.1 in
  let refresh response := processTokenRefresh c (Resp.headers response) b in
  (forall value, out.2 = Fulfilled value ->
     exists response,
       fetch c (baseUrl c url) sent = inr response
       /\ Resp.ok response = true /\ Resp.json response = Some value)
  /\ (forall response,
        fetch c (baseUrl c url) sent = inr response ->
        (refresh response).2 = None -> Resp.ok response = false ->
        out.1.2 = (refresh response).1
        /\ out.2 = Rejected (Error
                     (if String.eqb (Resp.text response) ""
                      then "Request failed with status " +:+ pretty (Resp.status response)
                      else Resp.text response)))
  /\ (forall response e,
        fetch c (baseUrl c url) sent = inr response ->
        (refresh response).2 = Some e ->
        out.2 = Rejected e /\ out.1.2 = b)
  /\ (forall e, fetch c (baseUrl c url) sent = inl e ->
        out.2 = Rejected e /\ out.1.2 = b).
Proof.
  intros out sent refresh.
  assert (Hsent : sent = withAuthHeaders c b (Headers_new []) options).
  { subst sent out. unfold httpClientUpload. by repeat case_match. }
  rewrite Hsent. clear Hsent sent. subst out refresh. unfold httpClientUpload.
  destruct (fetch c (baseUrl c url) _) as [e|response] eqn:Hfetch; cbn [fst snd].
  { repeat split; intros; by simplify_eq. }
  pose proof (processTokenRefresh_throws c (Resp.headers response) b) as Hthrows.
  destruct (processTokenRefresh c (Resp.headers response) b) as [b' [e|]] eqn:Hrefresh.
  { cbn [fst snd] in *. repeat split; intros; simplify_eq;
      rewrite ?Hrefresh in *; cbn [fst snd] in *; simplify_eq; eauto. }
  unfold truthy.
  destruct (Resp.ok response) eqn:Hok; cbn [negb];
    [destruct (Resp.json response) as [value|] eqn:Hjson|];
    cbn [fst snd]; repeat split; intros; simplify_eq;
    rewrite ?Hrefresh in *; cbn [fst snd] in *; simplify_eq; eauto;
    try congruence.
  match goal with |- context [String.eqb ?t ""] => by destruct (String.eqb t "") end.
Qed.

Lemma httpClientUpload_settles_witness :
  (httpClientUpload sampleClient "/playlist/p1/image"
     {| Options.headers := None; Options.method := "POST"; Options.body := "" |}
     sampleBrowser).2
  = Rejected (Error "invalid image file").
Proof.
  destruct (httpClientUpload_settles sampleClient "/playlist/p1/image"
              {| Options.headers := None; Options.method := "POST"; Options.body := "" |}
              sampleBrowser) as (_ & Hbad & _).
  destruct (Hbad {| Resp.status := 400; Resp.headers := Headers_new [];
                    Resp.text := "invalid image file"; Resp.json := None |})
    as [_ Hout]; [reflexivity|by vm_compute|reflexivity|].
  exact Hout.
Defined.

(** X20.  The headers a request goes out with.  Both wrappers send the
    client id.  Without headers from the caller, [httpClient] asks for
    JSON ([Accept: application/json]) while [httpClientUpload] sets no
    [Accept] header; with headers from the caller, [Accept] is as the
    caller set it.  The method and the body are the caller's. *)
Theorem request_headers c url options b :
  let json := (httpClient c url options b).1.1 in
  let upload := (httpClientUpload c url options b).1.1 in
  (exists h1 h2,
      Options.headers json = Some h1 /\ Options.headers upload = Some h2
      /\ Headers_get h1 clientUniqueIdHeader = Some (clientUniqueId c)
      /\ Headers_get h2 clientUniqueIdHeader = Some (clientUniqueId c)
      /\ (Options.headers options = None ->
          Headers_get h1 "Accept" = Some "application/json"
          /\ Headers_get h2 "Accept" = None)
      /\ (forall h, Options.headers options = Some h ->
          Headers_get h1 "Accept" = Headers_get h "Accept"
          /\ Headers_get h2 "Accept" = Headers_get h "Accept"))
  /\ Options.method json = Options.method options
  /\ Options.body upload = Options.body options.
Proof.
  intros json upload.
  assert (Hjson : json = withAuthHeaders c b (Headers_new [("Accept", "application/json")])
                           options).
  { subst json. unfold httpClient. repeat case_match; done. }
  assert (Hupload : upload = withAuthHeaders c b (Headers_new []) options).
  { subst upload. unfold httpClientUpload. repeat case_match; done. }
  rewrite Hjson, Hupload. clear Hjson Hupload json upload. split.
  - eexists _, _. split; [apply withAuthHeaders_headers|].
    split; [apply withAuthHeaders_headers|].
    assert (Hid : forall h, Headers_get (setAuthHeaders c b h) clientUniqueIdHeader
                            = Some (clientUniqueId c)).
    { intros h. unfold setAuthHeaders, Headers_get, Headers_set.
      repeat case_match; cbn [entries]; rewrite ?lookup_insert_ne by done;
        rewrite lookup_insert_eq; by rewrite (normalize_uuid _ (clientUniqueId_uuid c)). }
    assert (Hacc : forall h, Headers_get (setAuthHeaders c b h) "Accept"
                             = Headers_get h "Accept").
    { intros h. unfold setAuthHeaders, Headers_get, Headers_set.
      repeat case_match; cbn [entries]; by rewrite ?lookup_insert_ne. }
    split; [apply Hid|]. split; [apply Hid|]. rewrite !Hacc.
    split; [by intros ->|by intros h ->].
  - by destruct options as [[h|] m body].
Qed.

Lemma request_headers_witness :
  exists h,
    Options.headers
      (httpClient sampleClient "/playlist"
         {| Options.headers := None; Options.method := "GET"; Options.body := "" |}
         sampleBrowser).1.1 = Some h
    /\ Headers_get h "Accept" = Some "application/json".
Proof.
  destruct (request_headers sampleClient "/playlist"
              {| Options.headers := None; Options.method := "GET"; Options.body := "" |}
              sampleBrowser) as [(h1 & h2 & H1 & _ & _ & _ & Hnone & _) _].
  exists h1. split; [exact H1|]. by apply Hnone.
Defined.

End httpClientProps.

(* ===================================================================== *)
(** * Properties of the playlist details card *)
(* ===================================================================== *)

Module PlaylistDetailsProps.
Import httpClient PlaylistDetails.

Definition isNotify (c : Call) : bool :=
  match c with Notify _ _ _ => true | _ => false end.

Definition sampleHooks : Hooks :=
  {| translate := fun key => key;
     uploadPlaylistImage := fun _ _ => RejectedWith (Some "invalid image file");
     deletePlaylistImage := fun _ => Resolved;
     fileInputRef_current := true |}.

Definition sampleFile : File.t := {| File.type := "image/png"; File.size := 2048 |}.

Definition sampleRecord : Props :=
  {| record_id := Some "p1"; record_imagePath := Some "/data/playlist-images/p1/cover.jpg" |}.

(** The calls of an upload that passed the checks of the card. *)
Definition uploadCalls (h : Hooks) (id : string) (file : File.t) : list Call :=
  [SetUploading true; UploadPlaylistImage id file]
  ++ match uploadPlaylistImage h id file with
     | Resolved => [Notify "ra.notification.updated" "info" (Some 1%Z); Refresh]
     | RejectedWith message =>
         [Notify (messageOr message
                    (translate h "resources.playlist.message.imageUploadError"))
                 "warning" None]
     end
  ++ [SetUploading false]
  ++ (if fileInputRef_current h then [ResetFileInput] else []).

Definition accepted (record : Props) (files : option (list File.t))
           (id : string) (file : File.t) : Prop :=
  files ≫= head = Some file
  /\ record_id record = Some id /\ id <> ""
  /\ String.prefix "image/" (File.type file) = true
  /\ (File.size file <= 5242880)%Z.

Lemma handleFileChange_accepted h record files id file :
  accepted record files id file ->
  handleFileChange h record files = uploadCalls h id file.
Proof.
  intros (Hfile & Hid & Hne & Htype & Hsize). unfold handleFileChange, truthy.
  rewrite Hfile, Hid, Htype.
  destruct (String.eqb_spec id "") as [->|_]; [done|]. cbn [negb].
  by destruct (Z.gtb_spec (File.size file) (5 * 1024 * 1024)); [lia|].
Qed.

Lemma handleFileChange_requested h record files c :
  c ∈ handleFileChange h record files ->
  isNotify c = false ->
  exists id file, accepted record files id file.
Proof.
  unfold handleFileChange, accepted, truthy.
  destruct (files ≫= head) as [file|]; [|by intros ?%elem_of_nil].
  destruct (record_id record) as [id|]; [|by intros ?%elem_of_nil].
  destruct (String.eqb_spec id "") as [->|Hid]; cbn [negb]; [by intros ?%elem_of_nil|].
  destruct (String.prefix "image/" (File.type file)) eqn:Htype; cbn [negb].
  2:{ intros [->|[]%elem_of_nil]%elem_of_cons. done. }
  destruct (Z.gtb_spec (File.size file) (5 * 1024 * 1024)) as [Hbig|Hsmall].
  { intros [->|[]%elem_of_nil]%elem_of_cons. done. }
  intros _ _. exists id, file. repeat split; done || lia.
Qed.

Lemma elem_of_uploadCalls h id file c :
  c ∈ uploadCalls h id file ->
  c = SetUploading true \/ c = UploadPlaylistImage id file \/ c = SetUploading false
  \/ c = ResetFileInput \/ c = Refresh \/ isNotify c = true.
Proof.
  unfold uploadCalls. intros Hin.
  destruct (uploadPlaylistImage h id file), (fileInputRef_current h); cbn in Hin;
    repeat (apply elem_of_cons in Hin as [->|Hin]; [by eauto 10|]);
    by apply elem_of_nil in Hin.
Qed.

(** X21.  Which files the card sends: an upload is requested exactly for
    the first selected file, when the record has a non-empty id, the
    file's type starts with [image/] and its size is at most 5242880
    bytes. *)
Theorem handleFileChange_guard h record files id file :
  UploadPlaylistImage id file ∈ handleFileChange h record files
  <-> (files ≫= head = Some file
       /\ record_id record = Some id /\ id <> ""
       /\ String.prefix "image/" (File.type file) = true
       /\ (File.size file <= 5242880)%Z).
Proof.
  split.
  - intros Hin.
    destruct (handleFileChange_requested h record files _ Hin eq_refl)
      as (id' & file' & Hacc).
    rewrite (handleFileChange_accepted h _ _ _ _ Hacc) in Hin.
    apply elem_of_uploadCalls in Hin.
    destruct Hin as [?|[[= -> ->]|[?|[?|[?|?]]]]]; done.
  - intros Hacc. rewrite (handleFileChange_accepted h record files id file Hacc).
    apply list_elem_of_further, list_elem_of_here.
Qed.

Lemma handleFileChange_guard_witness :
  UploadPlaylistImage "p1" sampleFile
    ∈ handleFileChange sampleHooks sampleRecord (Some [sampleFile]).
Proof.
  apply handleFileChange_guard. by repeat split.
Defined.

(** X22.  An attempted upload is bracketed by the busy flag: the card
    sets [uploading], sends one request, notifies once, and always
    clears [uploading] again, whether the request resolved or was
    rejected.  When the request resolved the notification is
    [ra.notification.updated] at level [info] with [smart_count: 1], and
    the view is refreshed, which happens in no other case; a rejection is
    notified as a warning, with the error's message or, when it has
    none, with the translated fallback. *)
Theorem handleFileChange_busy h record files id file :
  UploadPlaylistImage id file ∈ handleFileChange h record files ->
  exists note,
    handleFileChange h record files
    = [SetUploading true; UploadPlaylistImage id file] ++ note
      ++ SetUploading false
         :: (if fileInputRef_current h then [ResetFileInput] else [])
    /\ length (filter (fun c => isNotify c = true) note) = 1
    /\ (Refresh ∈ note <-> uploadPlaylistImage h id file = Resolved)
    /\ (uploadPlaylistImage h id file = Resolved ->
        note = [Notify "ra.notification.updated" "info" (Some 1%Z); Refresh])
    /\ (forall message,
          uploadPlaylistImage h id file = RejectedWith message ->
          note = [Notify (match message with
                          | Some m => if String.eqb m "" then
                                        translate h "resources.playlist.message.imageUploadError"
                                      else m
                          | None => translate h "resources.playlist.message.imageUploadError"
                          end) "warning" None]).
Proof.
  intros Hin.
  destruct (handleFileChange_requested h record files _ Hin eq_refl)
    as (id' & file' & Hacc).
  rewrite (handleFileChange_accepted h _ _ _ _ Hacc) in Hin |- *.
  apply elem_of_uploadCalls in Hin.
  destruct Hin as [?|[[= -> ->]|[?|[?|[?|?]]]]]; try done.
  unfold uploadCalls. eexists. split; [reflexivity|].
  destruct (uploadPlaylistImage h id' file') as [|message].
  - repeat split; try done.
    intros _. apply list_elem_of_further, list_elem_of_here.
  - repeat split; try done.
    + intros [[=]|[]%elem_of_nil]%elem_of_cons.
    + intros m [= <-]. unfold messageOr, truthy.
      destruct message as [m|]; [|done]. by destruct (String.eqb m "").
Qed.

Lemma handleFileChange_busy_witness :
  handleFileChange sampleHooks sampleRecord (Some [sampleFile])
  = [SetUploading true; UploadPlaylistImage "p1" sampleFile;
     Notify "invalid image file" "warning" None;
     SetUploading false; ResetFileInput].
Proof.
  destruct (handleFileChange_busy sampleHooks sampleRecord (Some [sampleFile])
              "p1" sampleFile) as (note & Hcalls & _ & _ & _ & Hrejected).
  { apply list_elem_of_further, list_elem_of_here. }
  rewrite Hcalls, (Hrejected (Some "invalid image file") eq_refl). reflexivity.
Defined.

(** X23.  A selection that sends nothing changes nothing: without an
    upload request the card never sets the busy flag, never refreshes
    the view and never resets the input; it makes at most one call, a
    warning. *)
Theorem handleFileChange_refused h record files :
  (forall id file, UploadPlaylistImage id file ∉ handleFileChange h record files) ->
  handleFileChange h record files = []
  \/ exists message, handleFileChange h record files = [Notify message "warning" None].
Proof.
  intros Hnone. unfold handleFileChange in *.
  destruct (files ≫= head) as [file|]; [|by left].
  destruct (record_id record) as [id|]; [|by left].
  destruct (negb (truthy id)); [by left|].
  destruct (negb (String.prefix "image/" (File.type file))); [right; by eexists|].
  destruct (File.size file >? 5 * 1024 * 1024)%Z; [right; by eexists|].
  destruct (Hnone id file). apply list_elem_of_further, list_elem_of_here.
Qed.

Lemma handleFileChange_refused_witness :
  handleFileChange sampleHooks sampleRecord
    (Some [{| File.type := "text/plain"; File.size := 10 |}]) = []
  \/ exists message,
       handleFileChange sampleHooks sampleRecord
         (Some [{| File.type := "text/plain"; File.size := 10 |}])
       = [Notify message "warning" None].
Proof.
  apply handleFileChange_refused. intros id file Hin.
  vm_compute in Hin. apply elem_of_cons in Hin as [Hin|Hin]; [discriminate|].
  by apply elem_of_nil in Hin.
Defined.

Ltac elems H :=
  repeat (apply elem_of_cons in H as [H|H]; [by simplify_eq|]);
  by apply elem_of_nil in H.

Lemma handleRemoveImage_cases h record :
  (exists id imagePath,
      record_id record = Some id /\ id <> ""
      /\ record_imagePath record = Some imagePath /\ imagePath <> ""
      /\ handleRemoveImage h record
         = StopPropagation :: DeletePlaylistImage id ::
           match deletePlaylistImage h id with
           | Resolved => [Notify "ra.notification.updated" "info" (Some 1%Z); Refresh]
           | RejectedWith message =>
               [Notify (messageOr message
                          (translate h "resources.playlist.message.imageRemoveError"))
                       "warning" None]
           end)
  \/ ((forall id, ~ (record_id record = Some id /\ id <> ""
                     /\ exists imagePath,
                          record_imagePath record = Some imagePath /\ imagePath <> ""))
      /\ handleRemoveImage h record = [StopPropagation]).
Proof.
  unfold handleRemoveImage, truthy.
  destruct (record_id record) as [id|]; [|right; split; [by intros ? (? & _)|done]].
  destruct (record_imagePath record) as [imagePath|];
    [|right; split; [by intros ? (_ & _ & ? & ? & _)|done]].
  destruct (String.eqb_spec id "") as [->|Hid]; cbn [negb orb].
  { right. split; [|done]. intros ? ([= <-] & ? & _). done. }
  destruct (String.eqb_spec imagePath "") as [->|Hpath]; cbn [negb orb].
  { right. split; [|done]. intros ? (_ & _ & ? & [= <-] & ?). done. }
  left. by exists id, imagePath.
Qed.

(** X24.  Removing the image from the card: the propagation of the
    click is stopped first; a removal is requested exactly when the
    record has a non-empty id and a non-empty image path, and then for
    that id; the view is refreshed exactly when a request was made and
    resolved; and a request is followed by exactly one notification, none
    otherwise. *)
Theorem handleRemoveImage_guard h record :
  let calls := handleRemoveImage h record in
  let requested id :=
    record_id record = Some id /\ id <> ""
    /\ exists imagePath, record_imagePath record = Some imagePath /\ imagePath <> "" in
  head calls = Some StopPropagation
  /\ (forall id, DeletePlaylistImage id ∈ calls <-> requested id)
  /\ (Refresh ∈ calls <-> exists id, requested id /\ deletePlaylistImage h id = Resolved)
  /\ (length (filter (fun c => isNotify c = true) calls) <= 1
      /\ (length (filter (fun c => isNotify c = true) calls) = 1
          <-> exists id, requested id)).
Proof.
  intros calls requested.
  destruct (handleRemoveImage_cases h record) as
    [(id & imagePath & Hid & Hne & Hpath & Hne' & Hcalls)|[Hnone Hcalls]];
    subst calls; rewrite Hcalls.
  - assert (Hreq : requested id) by (subst requested; cbn; eauto).
    assert (Huniq : forall id', requested id' -> id' = id).
    { intros id' (Hid' & _). congruence. }
    split; [done|]. split; [|split; [|split]].
    + intros id'. split; [|intros ->%Huniq; apply list_elem_of_further, list_elem_of_here].
      intros Hin. destruct (deletePlaylistImage h id); elems Hin.
    + split.
      * intros Hin. exists id. split; [done|].
        destruct (deletePlaylistImage h id); [done|elems Hin].
      * intros (id' & ->%Huniq & ->). do 3 apply list_elem_of_further.
        apply list_elem_of_here.
    + destruct (deletePlaylistImage h id); vm_compute; lia.
    + split; [intros _; by exists id|].
      intros _. by destruct (deletePlaylistImage h id).
  - split; [done|]. split; [|split; [|split]].
    + intros id. split; [intros Hin; elems Hin|by intros ?%Hnone].
    + split; [intros Hin; elems Hin|by intros (id & ?%Hnone & _)].
    + vm_compute. lia.
    + split; [by vm_compute|by intros (id & ?%Hnone)].
Qed.

Lemma handleRemoveImage_guard_witness :
  DeletePlaylistImage "p1" ∈ handleRemoveImage sampleHooks sampleRecord.
Proof.
  destruct (handleRemoveImage_guard sampleHooks sampleRecord) as (_ & Hdel & _).
  apply Hdel. split; [done|]. split; [done|]. by eexists.
Defined.

End PlaylistDetailsProps.
